(** * tbtree snapshots: lifecycle and on-disk serialisation

    A shallow embedding of [pkg/tbtree/snapshot.go] (the variant with
    [WriteOpts], i.e. big-endian records and the [BaseOffset]/[CommitLog]
    scheme) together with the properties of its specification.

    Conventions of the embedding:
    - a Go [byte] is a [Z] in [0, 256); a [[]byte] is a [list Z];
    - Go [int] and [int64] are 64-bit two's complement: arithmetic on them is
      written with [wrap64]; [uint32(x)] and [uint64(x)] are [x mod 2^32] and
      [x mod 2^64];
    - Go mutates nodes in place; the embedding threads the node graph and
      returns the graph as it is after the call;
    - a Go panic (index out of range) and a loop that never exits are
      outcomes of their own, see [run]. *)

From Stdlib Require Import ZArith List Lia Bool.
From stdpp Require Import base option list gmap.
Import ListNotations.

Local Open Scope Z_scope.
Local Set Warnings "-register-all".

(** ** Machine integers and byte order *)

Definition wrap64 (x : Z) : Z := (x + 2 ^ 63) mod 2 ^ 64 - 2 ^ 63.
Definition uint32 (x : Z) : Z := x mod 2 ^ 32.
Definition uint64 (x : Z) : Z := x mod 2 ^ 64.

(** A count of bytes or elements as a Go [int], and [len(l)]. *)
Definition int (n : nat) : Z := wrap64 (Z.of_nat n).
Definition len {A : Type} (l : list A) : Z := int (length l).

Definition bytes := list Z.

(** [be n v]: the [n] low-order bytes of [v], most significant first. *)
Fixpoint be (n : nat) (v : Z) : bytes :=
  match n with
  | O => []
  | S k => be k (v / 256) ++ [v mod 256]
  end.

(** ** Errors of the package *)

Inductive error : Type :=
| ErrAlreadyClosed
| ErrReadersNotClosed
| ErrIllegalArgument
| ErrKeyNotFound
| ErrNoMoreEntries
| ErrIO (code : Z).

Global Instance error_eq_dec : EqDecision error.
Proof. solve_decision. Defined.

(** ** Outcomes of a call *)

Inductive run (A : Type) : Type :=
| Done (a : A)     (* the call returned *)
| Panic            (* index out of range *)
| Spin.            (* more iterations than the fuel given *)
Arguments Done {A} a.
Arguments Panic {A}.
Arguments Spin {A}.

(** ** Go slices as buffers

    Every operation leaves the length of the buffer as it is. [None] is the
    run-time panic of an out-of-range slice expression or index. *)

Definition make (n : nat) : bytes := repeat 0 n.

(** [buf[i] = b] for each byte of [bs] from [i] on. *)
Definition store_at (buf : bytes) (i : nat) (bs : bytes) : option bytes :=
  if (i + length bs <=? length buf)%nat
  then Some (take i buf ++ bs ++ drop (i + length bs) buf)
  else None.

(** [binary.BigEndian.PutUint32(buf[i:], v)] *)
Definition PutUint32 (buf : bytes) (i : nat) (v : Z) : option bytes :=
  store_at buf i (be 4 (uint32 v)).

(** [binary.BigEndian.PutUint64(buf[i:], v)] *)
Definition PutUint64 (buf : bytes) (i : nat) (v : Z) : option bytes :=
  store_at buf i (be 8 (uint64 v)).

(** [copy(buf[i:], src)]: copies as many bytes as fit. *)
Definition copy (buf : bytes) (i : nat) (src : bytes) : option bytes :=
  if (i <=? length buf)%nat
  then store_at buf i (take (length buf - i) src)
  else None.

(** [buf[:i]] *)
Definition slice_to (buf : bytes) (i : nat) : option bytes :=
  if (i <=? length buf)%nat then Some (take i buf) else None.

(** ** The byte-write helper [writeTo(buf, w)]

    An [io.Writer] is a state [W] with a [Write] method returning the new
    state, the count [n] and the error. *)

Section Helper.
Context {W : Type}.
Variable Write : W → bytes → W * Z * option error.

(** The [for] loop of the helper; [wn] is the running count. *)
Fixpoint writeTo_loop (fuel : nat) (buf : bytes) (w : W) (wn : Z)
  : option (W * option error) :=
  match fuel with
  | O => None
  | S fuel' =>
      let '(w', n, err) := Write w buf in
      match err with
      | Some e => Some (w', Some e)
      | None =>
          let wn' := wrap64 (wn + n) in
          if len buf =? wn'
          then Some (w', None)
          else writeTo_loop fuel' buf w' wn'
      end
  end.

Definition writeTo (fuel : nat) (buf : bytes) (w : W) : option (W * option error) :=
  writeTo_loop fuel buf w 0.
End Helper.

(** ** Sinks *)

(** A [bytes.Buffer]: takes everything, never fails. The state is what it
    holds. *)
Definition bufferWrite (w : bytes) (p : bytes) : bytes * Z * option error :=
  (w ++ p, len p, None).

(** A sink that takes at most [k] bytes of what it is offered and reports
    the count without an error. *)
Definition chunkWrite (k : nat) (w : bytes) (p : bytes) : bytes * Z * option error :=
  (w ++ take k p, len (take k p), None).

(** A sink whose every write fails with [e] and takes nothing. *)
Definition failWrite (e : error) (w : bytes) (p : bytes) : bytes * Z * option error :=
  (w, 0, Some e).

(** ** The node model *)

Definition InnerNodeType : Z := 0.
Definition RootInnerNodeType : Z := 1.
Definition LeafNodeType : Z := 2.
Definition RootLeafNodeType : Z := 3.

Record leafValue : Type := mkLeafValue {
  key : bytes;
  value : bytes;
  ts : Z;        (* uint64 *)
  prevTs : Z     (* uint64 *)
}.

(** The three implementations of the [node] interface. [off], [cts], [mut]
    are the fields behind [offset()], [ts()] and [mutated()]. A [nodeRef]
    carries its in-memory [node] field (absent when unresolved).

    Modelled from the spec: [resolve()] of a [nodeRef], which snapshot.go
    calls and does not define. It asks the node store for the node at the
    reference's offset; the store gives the node or fails. [stored] is that
    outcome. *)
Inductive node : Type :=
| innerNode (off : Z) (cts : Z) (mut : bool) (nodes : list node)
| leafNode (off : Z) (cts : Z) (mut : bool) (values : list leafValue)
| nodeRef (off : Z) (_maxKey : bytes) (_ts : Z) (_size : Z) (mut : bool)
          (node_ : option node) (stored : error + node).

Section node_induction.
Variable P : node → Prop.
Hypothesis P_inner : ∀ off cts mut nodes,
  Forall P nodes → P (innerNode off cts mut nodes).
Hypothesis P_leaf : ∀ off cts mut values, P (leafNode off cts mut values).
Hypothesis P_ref : ∀ off mk t sz mut node_ stored,
  (∀ m, node_ = Some m → P m) →
  (∀ m, stored = inr m → P m) →
  P (nodeRef off mk t sz mut node_ stored).

Fixpoint node_induction (n : node) : P n :=
  match n with
  | innerNode off cts mut nodes =>
      P_inner off cts mut nodes
        ((fix all (cs : list node) : Forall P cs :=
            match cs with
            | [] => @List.Forall_nil _ P
            | c :: cs' => @List.Forall_cons _ P c cs' (node_induction c) (all cs')
            end) nodes)
  | leafNode off cts mut values => P_leaf off cts mut values
  | nodeRef off mk t sz mut node_ stored =>
      P_ref off mk t sz mut node_ stored
        (match node_ as o return ∀ m, o = Some m → P m with
         | Some m' => λ m E, match E in _ = y return
                               match y with Some z => P z | None => True end
                             with eq_refl => node_induction m' end
         | None => λ m E, match E in _ = y return
                            match y with Some z => P z | None => True end
                          with eq_refl => I end
         end)
        (match stored as s return ∀ m, s = inr m → P m with
         | inr m' => λ m E, match E in _ = y return
                              match y with inr z => P z | inl _ => True end
                            with eq_refl => node_induction m' end
         | inl _ => λ m E, match E in _ = y return
                             match y with inr z => P z | inl _ => True end
                           with eq_refl => I end
         end)
  end.
End node_induction.

(** Modelled from the spec: [offset()], [ts()] and [mutated()] of the [node]
    interface, which snapshot.go calls and does not define. The spec lists
    them as observable properties of every node: the on-disk position (or the
    unpersisted sentinel), the commit timestamp, and whether the node changed
    since it was last persisted. *)
Definition offset (n : node) : Z :=
  match n with
  | innerNode off _ _ _ | leafNode off _ _ _ | nodeRef off _ _ _ _ _ _ => off
  end.

Definition node_ts (n : node) : Z :=
  match n with
  | innerNode _ cts _ _ | leafNode _ cts _ _ => cts
  | nodeRef _ _ t _ _ _ _ => t
  end.

Definition mutated (n : node) : bool :=
  match n with
  | innerNode _ _ mut _ | leafNode _ _ mut _ | nodeRef _ _ _ _ mut _ _ => mut
  end.

(** Modelled from the spec: [maxKey()], the greatest key in the subtree.
    Entries and children are in ascending order, so it is the key of the last
    entry, or the max key of the last child; a reference carries it. *)
Fixpoint maxKey (n : node) : bytes :=
  match n with
  | innerNode _ _ _ nodes =>
      (fix last_of (cs : list node) : bytes :=
         match cs with
         | [] => []
         | c :: cs' => match cs' with [] => maxKey c | _ :: _ => last_of cs' end
         end) nodes
  | leafNode _ _ _ values => from_option key [] (last values)
  | nodeRef _ mk _ _ _ _ _ => mk
  end.

(** Modelled from the spec: [size()], the byte length of the node once
    serialised (as a non-root record): tag, size field, count, then the
    entries or the child references. A reference carries the size of the
    node it points to. *)
Definition leafValue_size (v : leafValue) : nat :=
  (4 + length (key v) + 4 + length (value v) + 8 + 8)%nat.

Definition leafNode_size (values : list leafValue) : nat :=
  (1 + 4 + 4 + sum_list_with leafValue_size values)%nat.

Definition childRef_size (c : node) : nat :=
  (4 + length (maxKey c) + 8 + 4 + 8)%nat.

Definition innerNode_size (nodes : list node) : nat :=
  (1 + 4 + 4 + sum_list_with childRef_size nodes)%nat.

Definition node_size (n : node) : Z :=
  match n with
  | innerNode _ _ _ nodes => int (innerNode_size nodes)
  | leafNode _ _ _ values => int (leafNode_size values)
  | nodeRef _ _ _ sz _ _ _ => sz
  end.

(** ** Building the records *)

(** [for _, x := range xs { ... }] over a buffer and its cursor. *)
Fixpoint range {A : Type} (body : bytes * nat → A → option (bytes * nat))
    (st : bytes * nat) (xs : list A) : option (bytes * nat) :=
  match xs with
  | [] => Some st
  | x :: xs' => st' ← body st x; range body st' xs'
  end.

(** [writeNodeRefTo(n, buf[i0:])]: gives the buffer and the count written. *)
Definition writeNodeRefTo (n : node) (buf : bytes) (i0 : nat) : option (bytes * nat) :=
  let i := 0%nat in
  let maxKey := maxKey n in
  buf ← PutUint32 buf (i0 + i) (len maxKey);
  let i := (i + 4)%nat in
  buf ← copy buf (i0 + i) maxKey;
  let i := (i + length maxKey)%nat in
  buf ← PutUint64 buf (i0 + i) (node_ts n);
  let i := (i + 8)%nat in
  buf ← PutUint32 buf (i0 + i) (node_size n);
  let i := (i + 4)%nat in
  buf ← PutUint64 buf (i0 + i) (offset n);
  let i := (i + 8)%nat in
  Some (buf, i).

(** The buffer an inner node hands to the helper, [buf[:i]]. *)
Definition innerNode_record (asRoot : bool) (nodes : list node) : option bytes :=
  let size := innerNode_size nodes in
  let buf := make (size + 4) in
  let i := 0%nat in
  buf ← store_at buf i [if asRoot then RootInnerNodeType else InnerNodeType];
  let i := (i + 1)%nat in
  buf ← PutUint32 buf i (int size);
  let i := (i + 4)%nat in
  buf ← PutUint32 buf i (len nodes);
  let i := (i + 4)%nat in
  '(buf, i) ← range (λ '(buf, i) c,
                 '(buf, n) ← writeNodeRefTo c buf i; Some (buf, (i + n)%nat))
               (buf, i) nodes;
  '(buf, i) ← (if asRoot
               then buf ← PutUint32 buf i (int size); Some (buf, (i + 4)%nat)
               else Some (buf, i));
  slice_to buf i.

(** The body of the loop over [l.values]. *)
Definition put_leafValue (st : bytes * nat) (v : leafValue) : option (bytes * nat) :=
  let '(buf, i) := st in
  buf ← PutUint32 buf i (len (key v));
  let i := (i + 4)%nat in
  buf ← copy buf i (key v);
  let i := (i + length (key v))%nat in
  buf ← PutUint32 buf i (len (value v));
  let i := (i + 4)%nat in
  buf ← copy buf i (value v);
  let i := (i + length (value v))%nat in
  buf ← PutUint64 buf i (ts v);
  let i := (i + 8)%nat in
  buf ← PutUint64 buf i (prevTs v);
  let i := (i + 8)%nat in
  Some (buf, i).

(** The buffer a leaf node hands to the helper, [buf[:i]]. *)
Definition leafNode_record (asRoot : bool) (values : list leafValue) : option bytes :=
  let size := leafNode_size values in
  let buf := make (size + 4) in
  let i := 0%nat in
  buf ← store_at buf i [if asRoot then RootLeafNodeType else LeafNodeType];
  let i := (i + 1)%nat in
  buf ← PutUint32 buf i (int size);
  let i := (i + 4)%nat in
  buf ← PutUint32 buf i (len values);
  let i := (i + 4)%nat in
  '(buf, i) ← range put_leafValue (buf, i) values;
  '(buf, i) ← (if asRoot
               then buf ← PutUint32 buf i (int size); Some (buf, (i + 4)%nat)
               else Some (buf, i));
  slice_to buf i.

(** ** [writeTo] of the three node variants *)

Record WriteOpts : Type := mkWriteOpts {
  OnlyMutated : bool;
  BaseOffset : Z;    (* int64 *)
  CommitLog : bool
}.

(** What a serialisation acts on besides the nodes: the sink, and the node
    store, of which the embedding keeps the log of the references it was asked
    to resolve (their offsets, oldest first). *)
Record io (W : Type) : Type := mkIo {
  sink : W;
  loads : list Z
}.
Arguments mkIo {W} sink loads.
Arguments sink {W} i.
Arguments loads {W} i.

Section Serializer.
Context {W : Type}.
Variable Write : W → bytes → W * Z * option error.
Variable fuel : nat.   (* bound on the iterations of each run of the helper *)

(** The node as it is after the call, the sink and store, and the results
    [(off, tw, err)]. *)
Definition result : Type := run (node * io W * (Z * Z * option error)).

Section Children.
Variable writeTo_node : node → io W → bool → WriteOpts → result.
Variable writeOpts : WriteOpts.

(** The first loop of [innerNode.writeTo], over [n.nodes] from [cs] on:
    gives the children as they are afterwards, the entries of [offsets]
    and the count [cw]. *)
Fixpoint writeChildren (cs : list node) (st : io W) (cw : Z)
  : run (list node * io W * (list Z * Z * option error)) :=
  match cs with
  | [] => Done ([], st, ([], cw, None))
  | c :: cs' =>
      if OnlyMutated writeOpts && negb (mutated c)
      then
        match writeChildren cs' st cw with
        | Done (cs'', st', (offsets, cw', err)) =>
            Done (c :: cs'', st', (0 :: offsets, cw', err))
        | Panic => Panic
        | Spin => Spin
        end
      else
        let wopts := {| OnlyMutated := OnlyMutated writeOpts;
                        BaseOffset := wrap64 (BaseOffset writeOpts + cw);
                        CommitLog := CommitLog writeOpts |} in
        match writeTo_node c st false wopts with
        | Done (c', st', (o, w, Some err)) =>
            Done (c' :: cs', st', ([], cw, Some err))
        | Done (c', st', (o, w, None)) =>
            match writeChildren cs' st' (wrap64 (cw + w)) with
            | Done (cs'', st'', (offsets, cw', err)) =>
                Done (c' :: cs'', st'', (o :: offsets, cw', err))
            | Panic => Panic
            | Spin => Spin
            end
        | Panic => Panic
        | Spin => Spin
        end
  end.
End Children.

(** [innerNode.writeTo] from [size := n.size()] on: the record is built
    from the children as the first loop left them; [offsets] is not read. *)
Definition innerNode_emit (off cts : Z) (mut : bool) (nodes : list node)
    (st : io W) (cw : Z) (asRoot : bool) (writeOpts : WriteOpts) : result :=
  let n := innerNode off cts mut nodes in
  let size := innerNode_size nodes in
  match innerNode_record asRoot nodes with
  | None => Panic
  | Some buf =>
      match writeTo Write fuel buf (sink st) with
      | None => Spin
      | Some (w', Some err) => Done (n, mkIo w' (loads st), (0, 0, Some err))
      | Some (w', None) =>
          let n' := if CommitLog writeOpts
                    then innerNode (wrap64 (BaseOffset writeOpts + cw)) cts mut nodes
                    else n in
          let tw := wrap64 (cw + int size) in
          let tw := if asRoot then wrap64 (tw + 4) else tw in
          Done (n', mkIo w' (loads st), (wrap64 (BaseOffset writeOpts + cw), tw, None))
      end
  end.

(** [leafNode.writeTo] *)
Definition leafNode_writeTo (off cts : Z) (mut : bool) (values : list leafValue)
    (st : io W) (asRoot : bool) (writeOpts : WriteOpts) : result :=
  let l := leafNode off cts mut values in
  if OnlyMutated writeOpts && (0 <? off)
  then Done (l, st, (off, 0, None))
  else
    let size := leafNode_size values in
    match leafNode_record asRoot values with
    | None => Panic
    | Some buf =>
        match writeTo Write fuel buf (sink st) with
        | None => Spin
        | Some (w', Some err) => Done (l, mkIo w' (loads st), (0, 0, Some err))
        | Some (w', None) =>
            let l' := if CommitLog writeOpts
                      then leafNode (BaseOffset writeOpts) cts mut values
                      else l in
            let tw := int size in
            let tw := if asRoot then wrap64 (tw + 4) else tw in
            Done (l', mkIo w' (loads st), (BaseOffset writeOpts, tw, None))
        end
    end.

(** [n.node == nil || n.node.offset() > 0] *)
Definition ref_durable (node_ : option node) : bool :=
  match node_ with
  | None => true
  | Some m => 0 <? offset m
  end.

(** The [writeTo] method of the [node] interface. *)
Fixpoint node_writeTo (n : node) (st : io W) (asRoot : bool) (writeOpts : WriteOpts)
    {struct n} : result :=
  match n with
  | innerNode off cts mut nodes =>
      if OnlyMutated writeOpts && (0 <? off)
      then Done (n, st, (off, 0, None))
      else
        match writeChildren node_writeTo writeOpts nodes st 0 with
        | Done (nodes', st', (offsets, cw, Some err)) =>
            Done (innerNode off cts mut nodes', st', (0, 0, Some err))
        | Done (nodes', st', (offsets, cw, None)) =>
            innerNode_emit off cts mut nodes' st' cw asRoot writeOpts
        | Panic => Panic
        | Spin => Spin
        end
  | leafNode off cts mut values =>
      leafNode_writeTo off cts mut values st asRoot writeOpts
  | nodeRef off mk t sz mut node_ stored =>
      if OnlyMutated writeOpts && ref_durable node_
      then Done (n, st, (off, 0, None))
      else
        (* node, err := n.resolve() *)
        let st := mkIo (sink st) (loads st ++ [off]) in
        match stored with
        | inl err => Done (n, st, (0, 0, Some err))
        | inr m =>
            match node_writeTo m st asRoot writeOpts with
            | Done (m', st', r) => Done (nodeRef off mk t sz mut node_ (inr m'), st', r)
            | Panic => Panic
            | Spin => Spin
            end
        end
  end.

(** [innerNode.writeTo], as [node_writeTo] runs it. *)
Definition innerNode_writeTo (off cts : Z) (mut : bool) (nodes : list node)
    (st : io W) (asRoot : bool) (writeOpts : WriteOpts) : result :=
  node_writeTo (innerNode off cts mut nodes) st asRoot writeOpts.
End Serializer.

(** ** Snapshots *)

Record ReaderSpec : Type := mkReaderSpec {
  spec_initialKey : bytes;
  spec_isPrefix : bool;
  spec_ascOrder : bool
}.

Section Snapshots.
(** What snapshot.go uses and does not define: the owning tree with its
    [snapshotClosed], the type of a reader's path, and [get] and
    [findLeafNode] of the [node] interface ([findLeafNode] with the two
    [nil] arguments of its only call left out). *)
Context {T Path : Type}.
Variable get : node → bytes → bytes * Z * option error.
Variable findLeafNode : node → bytes → bool → Path * node * Z * option error.

Record Reader : Type := mkReader {
  rd_snapshot : Z;      (* the id of the snapshot it reads *)
  rd_id : Z;            (* int *)
  rd_initialKey : bytes;
  rd_isPrefix : bool;
  rd_ascOrder : bool;
  rd_path : Path;
  rd_leafNode : node;
  rd_offset : Z;
  rd_closed : bool
}.

Record Snapshot : Type := mkSnapshot {
  snap_id : Z;          (* uint64 *)
  root : node;
  readers : gmap Z Reader;
  maxReaderID : Z;      (* int *)
  closed : bool
}.

Variable snapshotClosed : T → Snapshot → T * option error.

(** The owning tree, with the log of the snapshots it was told are
    closed (their ids, oldest first). *)
Record TBtree : Type := mkTBtree {
  tree : T;
  released : list Z
}.

Definition Snapshot_Get (s : Snapshot) (k : bytes) : bytes * Z * option error :=
  if closed s
  then ([], 0, Some ErrAlreadyClosed)
  else get (root s) k.

Definition Snapshot_Ts (s : Snapshot) : Z * option error :=
  if closed s
  then (0, Some ErrAlreadyClosed)
  else (node_ts (root s), None).

Definition Snapshot_Reader (s : Snapshot) (spec : option ReaderSpec)
  : Snapshot * (option Reader * option error) :=
  if closed s
  then (s, (None, Some ErrAlreadyClosed))
  else
    match spec with
    | None => (s, (None, Some ErrIllegalArgument))
    | Some spec =>
        let '(path, startingLeaf, startingOffset, err) :=
          findLeafNode (root s) (spec_initialKey spec) (spec_ascOrder spec) in
        if decide (err = Some ErrKeyNotFound)
        then (s, (None, Some ErrNoMoreEntries))
        else
          match err with
          | Some e => (s, (None, Some e))
          | None =>
              let reader := {| rd_snapshot := snap_id s;
                               rd_id := maxReaderID s;
                               rd_initialKey := spec_initialKey spec;
                               rd_isPrefix := spec_isPrefix spec;
                               rd_ascOrder := spec_ascOrder spec;
                               rd_path := path;
                               rd_leafNode := startingLeaf;
                               rd_offset := startingOffset;
                               rd_closed := false |} in
              let s := {| snap_id := snap_id s;
                          root := root s;
                          readers := <[rd_id reader := reader]> (readers s);
                          maxReaderID := wrap64 (maxReaderID s + 1);
                          closed := closed s |} in
              (s, (Some reader, None))
          end
    end.

Definition Snapshot_closedReader (s : Snapshot) (r : Reader)
  : Snapshot * option error :=
  if closed s
  then (s, Some ErrAlreadyClosed)
  else
    ({| snap_id := snap_id s;
        root := root s;
        readers := delete (rd_id r) (readers s);
        maxReaderID := maxReaderID s;
        closed := closed s |}, None).

Definition Snapshot_Close (s : Snapshot) (t : TBtree)
  : Snapshot * TBtree * option error :=
  if closed s
  then (s, t, Some ErrAlreadyClosed)
  else if (0 <? size (readers s))%nat
  then (s, t, Some ErrReadersNotClosed)
  else
    let '(t', err) := snapshotClosed (tree t) s in
    let t := {| tree := t'; released := released t ++ [snap_id s] |} in
    match err with
    | Some e => (s, t, Some e)
    | None =>
        ({| snap_id := snap_id s;
            root := root s;
            readers := readers s;
            maxReaderID := maxReaderID s;
            closed := true |}, t, None)
    end.

Section WriteTo.
Context {W : Type}.
Variable Write : W → bytes → W * Z * option error.
Variable fuel : nat.

Definition Snapshot_WriteTo (s : Snapshot) (st : io W) (writeOpts : WriteOpts)
  : run (Snapshot * io W * (Z * option error)) :=
  match node_writeTo Write fuel (root s) st true writeOpts with
  | Done (root', st', (_, n, err)) =>
      Done ({| snap_id := snap_id s;
               root := root';
               readers := readers s;
               maxReaderID := maxReaderID s;
               closed := closed s |}, st', (n, err))
  | Panic => Panic
  | Spin => Spin
  end.
End WriteTo.
End Snapshots.

(** * Definitions for the properties *)

(** ** Buffers under a cursor

    [cursor buf i pre n]: the first [i] bytes of [buf] are [pre] and [n]
    bytes of room follow. *)

Definition cursor (buf : bytes) (i : nat) (pre : bytes) (n : nat) : Prop :=
  ∃ rest, buf = pre ++ rest ∧ i = length pre ∧ length rest = n.

(** ** The layouts of the specification *)

(** Leaf entry record:
    keyLen(4B) | keyBytes | valueLen(4B) | valueBytes | timestamp(8B) |
    prevTimestamp(8B), integers big-endian. *)
Definition leafEntry_layout (v : leafValue) : bytes :=
  be 4 (uint32 (len (key v))) ++ key v ++
  be 4 (uint32 (len (value v))) ++ value v ++
  be 8 (uint64 (ts v)) ++ be 8 (uint64 (prevTs v)).

(** Child reference record:
    maxKeyLen(4B) | maxKeyBytes | commitTimestamp(8B) | childSize(4B) |
    childOffset(8B), with [childOffset] left open. *)
Definition childRef_layout (c : node) (childOffset : Z) : bytes :=
  be 4 (uint32 (len (maxKey c))) ++ maxKey c ++
  be 8 (uint64 (node_ts c)) ++ be 4 (uint32 (node_size c)) ++
  be 8 (uint64 childOffset).

(** Leaf record of the specification: tag, size(4B), count(4B), the entries,
    and for a root the size once more. *)
Definition leafNode_layout (asRoot : bool) (values : list leafValue) : bytes :=
  [if asRoot then RootLeafNodeType else LeafNodeType] ++
  be 4 (uint32 (int (leafNode_size values))) ++
  be 4 (uint32 (len values)) ++
  concat (leafEntry_layout <$> values) ++
  (if asRoot then be 4 (uint32 (int (leafNode_size values))) else []).

(** Inner record of the specification: tag, size(4B), count(4B), the child
    references, and for a root the size once more. [childOffset c] is the
    offset recorded for the child [c]. *)
Definition innerNode_layout (asRoot : bool) (nodes : list node)
    (childOffset : node → Z) : bytes :=
  [if asRoot then RootInnerNodeType else InnerNodeType] ++
  be 4 (uint32 (int (innerNode_size nodes))) ++
  be 4 (uint32 (len nodes)) ++
  concat ((λ c, childRef_layout c (childOffset c)) <$> nodes) ++
  (if asRoot then be 4 (uint32 (int (innerNode_size nodes))) else []).

(** The leaf record as the list tag, size(4B), count(4B), entries, with
    nothing after the entries. *)
Definition leafNode_claimed (asRoot : bool) (values : list leafValue) : bytes :=
  [if asRoot then RootLeafNodeType else LeafNodeType] ++
  be 4 (uint32 (int (leafNode_size values))) ++
  be 4 (uint32 (len values)) ++
  concat (leafEntry_layout <$> values).

(** The value of a byte sequence read most significant byte first. *)
Definition be_value (bs : bytes) : Z := foldl (λ acc b, acc * 256 + b) 0 bs.

(** ** Runs of the serialiser *)

(** Whether a call of [writeTo] returns at once, nothing written: the guard
    at the head of each of the three methods, read on the node as it is
    before the call; a reference that goes on hands the call to the node the
    store gives for it. *)
Fixpoint passed_over (o : WriteOpts) (n : node) : bool :=
  match n with
  | innerNode off _ _ _ => OnlyMutated o && (0 <? off)
  | leafNode off _ _ _ => OnlyMutated o && (0 <? off)
  | nodeRef _ _ _ _ _ node_ stored =>
      (OnlyMutated o && ref_durable node_)
      || match stored with
         | inl _ => false
         | inr m => passed_over o m
         end
  end.

(** The inner node or leaf a reference stands for, through any number of
    references. *)
Fixpoint resolved (n : node) : node :=
  match n with
  | nodeRef _ _ _ _ _ _ (inr m) => resolved m
  | _ => n
  end.

(** The node with every [off] field set to zero: all of its state but the
    offsets. *)
Fixpoint erase_offsets (n : node) : node :=
  match n with
  | innerNode _ cts mut nodes => innerNode 0 cts mut (erase_offsets <$> nodes)
  | leafNode _ cts mut values => leafNode 0 cts mut values
  | nodeRef _ mk t sz mut node_ stored =>
      nodeRef 0 mk t sz mut (erase_offsets <$> node_)
        (match stored with inl e => inl e | inr m => inr (erase_offsets m) end)
  end.

(** A full dump into a buffer that succeeds, against an incremental dump of
    the same node: the incremental one succeeds and hands the sink no more
    bytes. *)
Definition no_more_bytes (fuel : nat) (n : node) : Prop :=
  ∀ st1 st2 asRoot o1 o2 n1 st1' off1 tw1,
    OnlyMutated o1 = false → OnlyMutated o2 = true →
    node_writeTo bufferWrite (S fuel) n st1 asRoot o1
    = Done (n1, st1', (off1, tw1, None)) →
    ∃ n2 st2' off2 tw2 out1 out2,
      node_writeTo bufferWrite (S fuel) n st2 asRoot o2
      = Done (n2, st2', (off2, tw2, None)) ∧
      sink st1' = sink st1 ++ out1 ∧ sink st2' = sink st2 ++ out2 ∧
      (length out2 ≤ length out1)%nat.

(** Into a buffer every serialisation returns, and the sink and the log of
    the store only grow. *)
Definition returns_growing (fuel : nat) (n : node) : Prop :=
  ∀ st asRoot o, ∃ n' out ls r,
    node_writeTo bufferWrite (S fuel) n st asRoot o
    = Done (n', mkIo (sink st ++ out) (loads st ++ ls), r).

(** The count a serialisation into a buffer returns is the number of bytes
    it handed the sink, as an [int64]. *)
Definition counts_bytes (fuel : nat) (n : node) : Prop :=
  ∀ st asRoot o n' st' off tw,
    node_writeTo bufferWrite (S fuel) n st asRoot o = Done (n', st', (off, tw, None)) →
    ∃ out, sink st' = sink st ++ out ∧ tw = int (length out).


(** ** Sequences of calls on a snapshot *)

Section Calls.
Context {T Path : Type}.
Variable snapshotClosed : T → @Snapshot Path → T * option error.
Variable findLeafNode : node → bytes → bool → Path * node * Z * option error.

(** [Close()] of every reader in [rs], one after the other: each ends in
    the snapshot's [closedReader]. *)
Definition closeReaders (s : @Snapshot Path) (rs : list (@Reader Path)) : Snapshot :=
  foldl (λ s r, (Snapshot_closedReader s r).1) s rs.

(** The calls that act on the registry of a snapshot. *)
Inductive call : Type :=
| CallReader (spec : option ReaderSpec)
| CallClosedReader (r : @Reader Path)
| CallClose.

(** One call, with the id of the reader it handed out, if any. *)
Definition do_call (st : @Snapshot Path * @TBtree T) (c : call)
  : @Snapshot Path * @TBtree T * option Z :=
  let '(s, t) := st in
  match c with
  | CallReader spec =>
      let '(s', (r, _)) := Snapshot_Reader findLeafNode s spec in (s', t, rd_id <$> r)
  | CallClosedReader r => ((Snapshot_closedReader s r).1, t, None)
  | CallClose =>
      let '(s', t', _) := Snapshot_Close snapshotClosed s t in (s', t', None)
  end.

(** A sequence of calls, with the ids handed out, oldest first. *)
Fixpoint do_calls (st : @Snapshot Path * @TBtree T) (cs : list call)
  : @Snapshot Path * @TBtree T * list Z :=
  match cs with
  | [] => (st, [])
  | c :: cs' =>
      let '(st1, id) := do_call st c in
      let '(st2, ids) := do_calls st1 cs' in
      (st2, from_option (λ i, [i]) [] id ++ ids)
  end.

(** Every id in the registry is below the next id to assign. *)
Definition registry_below (s : @Snapshot Path) : Prop :=
  ∀ k, is_Some (readers s !! k) → k < maxReaderID s.
End Calls.

(** ** Sample data *)

(** A leaf that was never written, a leaf that lies at offset 40, an inner
    node over both, and a reference that the node store cannot resolve. *)
Definition leaf_new : node := leafNode 0 7 true [mkLeafValue [107] [1; 2] 7 0].
Definition leaf_old : node := leafNode 40 5 false [mkLeafValue [97] [9] 5 3].
Definition inner_new : node := innerNode 0 7 true [leaf_old; leaf_new].
Definition ref_lost : node := nodeRef 40 [97] 5 31 false None (inl (ErrIO 5)).

(** A tree that accepts every release and a tree that refuses every one, a
    reader, and an open snapshot that has it in its registry. *)
Definition tree_accepts : unit → @Snapshot unit → unit * option error :=
  λ t _, (t, None).
Definition tree_refuses : unit → @Snapshot unit → unit * option error :=
  λ t _, (t, Some (ErrIO 1)).
Definition reader0 : @Reader unit := mkReader 1 0 [107] false true () leaf_new 0 false.
Definition snapshot0 : @Snapshot unit := mkSnapshot 1 leaf_new ∅ 0 false.
Definition snapshot1 : @Snapshot unit := mkSnapshot 1 leaf_new {[0 := reader0]} 1 false.

(** A descent that finds no starting point and one that finds the root. *)
Definition find_nothing : node → bytes → bool → unit * node * Z * option error :=
  λ n _ _, ((), n, 0, Some ErrKeyNotFound).
Definition find_root : node → bytes → bool → unit * node * Z * option error :=
  λ n _ _, ((), n, 0, None).

(** ** Further notions *)

(** A snapshot that is closed has no reader left in its registry. *)
Definition closed_empty {Path : Type} (s : @Snapshot Path) : Prop :=
  closed s = true → readers s = ∅.

(** The contract of [io.Writer]: a count short of what was offered comes
    with an error. *)
Definition honours_contract {W : Type}
    (Write : W → bytes → W * Z * option error) : Prop :=
  ∀ w p w' n, Write w p = (w', n, None) → n = len p.

(** Whether a node is a reference. *)
Definition is_ref (n : node) : bool :=
  match n with
  | nodeRef _ _ _ _ _ _ _ => true
  | _ => false
  end.

(** Whether a graph is wholly in memory: no reference anywhere in it. *)
Fixpoint has_no_ref (n : node) : bool :=
  match n with
  | innerNode _ _ _ nodes => forallb has_no_ref nodes
  | leafNode _ _ _ _ => true
  | nodeRef _ _ _ _ _ _ _ => false
  end.

(** The bytes of the non-root records of all the nodes of a graph, each node
    counted once; a reference stands for the node the store gives for it. *)
Fixpoint dump_size (n : node) : nat :=
  match n with
  | innerNode _ _ _ nodes => (sum_list_with dump_size nodes + innerNode_size nodes)%nat
  | leafNode _ _ _ values => leafNode_size values
  | nodeRef _ _ _ _ _ _ stored =>
      match stored with
      | inl _ => 0%nat
      | inr m => dump_size m
      end
  end.

(** An entry whose fields fit the record: key and value shorter than 2^32
    bytes, timestamps in the range of [uint64]. *)
Definition entry_fits (v : leafValue) : Prop :=
  Z.of_nat (length (key v)) < 2 ^ 32 ∧ Z.of_nat (length (value v)) < 2 ^ 32 ∧
  0 ≤ ts v < 2 ^ 64 ∧ 0 ≤ prevTs v < 2 ^ 64.

(** * Properties *)

(** ** Buffer operations under a cursor *)

Lemma length_be n v : length (be n v) = n.
Proof.
  revert v. induction n as [|n IH]; intros v; simpl; [done|].
  rewrite length_app, IH. simpl. lia.
Qed.

Lemma cursor_make n : cursor (make n) 0 [] n.
Proof. exists (make n). unfold make. rewrite repeat_length. done. Qed.

Lemma store_at_cursor buf i pre n bs :
  cursor buf i pre n → (length bs ≤ n)%nat →
  ∃ buf', store_at buf i bs = Some buf' ∧
          cursor buf' (i + length bs) (pre ++ bs) (n - length bs).
Proof.
  intros (rest & -> & -> & <-) Hle.
  unfold store_at. rewrite length_app.
  destruct (Nat.leb_spec (length pre + length bs) (length pre + length rest)) as [_|?]; [|lia].
  eexists. split; [done|].
  exists (drop (length bs) rest). split_and!.
  - rewrite take_app_length, drop_app_add', <- (assoc_L (++)); done.
  - rewrite length_app. done.
  - rewrite length_drop. done.
Qed.

Lemma PutUint32_cursor buf i pre n v :
  cursor buf i pre n → (4 ≤ n)%nat →
  ∃ buf', PutUint32 buf i v = Some buf' ∧
          cursor buf' (i + 4) (pre ++ be 4 (uint32 v)) (n - 4).
Proof.
  intros Hc Hn. unfold PutUint32.
  destruct (store_at_cursor _ _ _ _ (be 4 (uint32 v)) Hc) as (buf' & ? & ?).
  - rewrite length_be. done.
  - rewrite length_be in *. eauto.
Qed.

Lemma PutUint64_cursor buf i pre n v :
  cursor buf i pre n → (8 ≤ n)%nat →
  ∃ buf', PutUint64 buf i v = Some buf' ∧
          cursor buf' (i + 8) (pre ++ be 8 (uint64 v)) (n - 8).
Proof.
  intros Hc Hn. unfold PutUint64.
  destruct (store_at_cursor _ _ _ _ (be 8 (uint64 v)) Hc) as (buf' & ? & ?).
  - rewrite length_be. done.
  - rewrite length_be in *. eauto.
Qed.

Lemma copy_cursor buf i pre n src :
  cursor buf i pre n → (length src ≤ n)%nat →
  ∃ buf', copy buf i src = Some buf' ∧
          cursor buf' (i + length src) (pre ++ src) (n - length src).
Proof.
  intros Hc Hn. unfold copy.
  assert (length buf = (i + n)%nat) as Hlen.
  { destruct Hc as (rest & -> & -> & <-). by rewrite length_app. }
  destruct (Nat.leb_spec i (length buf)) as [_|?]; [|lia].
  rewrite take_ge by lia.
  by apply store_at_cursor.
Qed.

Lemma slice_to_cursor buf i pre n :
  cursor buf i pre n → slice_to buf i = Some pre.
Proof.
  intros (rest & -> & -> & <-). unfold slice_to. rewrite length_app.
  destruct (Nat.leb_spec (length pre) (length pre + length rest)) as [_|?]; [|lia].
  by rewrite take_app_length.
Qed.

Lemma cursor_index buf i j pre n : cursor buf j pre n → i = j → cursor buf i pre n.
Proof. by intros ? ->. Qed.

Lemma cursor_eq buf i i' pre pre' n n' :
  cursor buf i pre n → pre' = pre → i' = i → n' = n → cursor buf i' pre' n'.
Proof. by intros ? -> -> ->. Qed.

(** One step of a record builder: run the operation at the head of the goal
    against the cursor in the context. *)
Ltac cursor_step :=
  let b' := fresh "buf" in
  let E := fresh "E" in
  let C := fresh "C" in
  match goal with
  | H : cursor ?b ?j ?pre ?n |- context [PutUint32 ?b ?i ?v] =>
      destruct (PutUint32_cursor b i pre n v) as (b' & E & C);
      [by (apply (cursor_index _ _ _ _ _ H); simpl; lia) | simpl in *; lia
      | rewrite E; clear E H; cbn [mbind option_bind] ]
  | H : cursor ?b ?j ?pre ?n |- context [PutUint64 ?b ?i ?v] =>
      destruct (PutUint64_cursor b i pre n v) as (b' & E & C);
      [by (apply (cursor_index _ _ _ _ _ H); simpl; lia) | simpl in *; lia
      | rewrite E; clear E H; cbn [mbind option_bind] ]
  | H : cursor ?b ?j ?pre ?n |- context [copy ?b ?i ?src] =>
      destruct (copy_cursor b i pre n src) as (b' & E & C);
      [by (apply (cursor_index _ _ _ _ _ H); simpl; lia) | simpl in *; lia
      | rewrite E; clear E H; cbn [mbind option_bind] ]
  | H : cursor ?b ?j ?pre ?n |- context [store_at ?b ?i ?bs] =>
      destruct (store_at_cursor b i pre n bs) as (b' & E & C);
      [by (apply (cursor_index _ _ _ _ _ H); simpl; lia) | simpl in *; lia
      | rewrite E; clear E H; cbn [mbind option_bind] ]
  end.

(** ** The record builders against the layouts *)

Lemma length_leafEntry_layout v : length (leafEntry_layout v) = leafValue_size v.
Proof.
  unfold leafEntry_layout, leafValue_size.
  rewrite !length_app, !length_be. lia.
Qed.

Lemma length_childRef_layout c o : length (childRef_layout c o) = childRef_size c.
Proof.
  unfold childRef_layout, childRef_size.
  rewrite !length_app, !length_be. lia.
Qed.

Lemma put_leafValue_cursor buf i pre n v :
  cursor buf i pre n → (leafValue_size v ≤ n)%nat →
  ∃ buf', put_leafValue (buf, i) v = Some (buf', (i + leafValue_size v)%nat) ∧
          cursor buf' (i + leafValue_size v) (pre ++ leafEntry_layout v)
                 (n - leafValue_size v).
Proof.
  intros Hc Hn. unfold put_leafValue, leafValue_size in *.
  do 6 cursor_step.
  eexists. split.
  - f_equal. f_equal. lia.
  - match goal with C : cursor _ _ _ _ |- _ => eapply (cursor_eq _ _ _ _ _ _ _ C) end.
    + unfold leafEntry_layout. by rewrite <- !(assoc_L (++)).
    + lia.
    + lia.
Qed.

Lemma writeNodeRefTo_cursor c buf i pre n :
  cursor buf i pre n → (childRef_size c ≤ n)%nat →
  ∃ buf', writeNodeRefTo c buf i = Some (buf', childRef_size c) ∧
          cursor buf' (i + childRef_size c) (pre ++ childRef_layout c (offset c))
                 (n - childRef_size c).
Proof.
  intros Hc Hn. unfold writeNodeRefTo, childRef_size in *. cbv zeta.
  do 5 cursor_step.
  eexists. split.
  - done.
  - match goal with C : cursor _ _ _ _ |- _ => eapply (cursor_eq _ _ _ _ _ _ _ C) end.
    + unfold childRef_layout. by rewrite <- !(assoc_L (++)).
    + lia.
    + lia.
Qed.

Section range_cursor.
Context {A : Type}.
Variable body : bytes * nat → A → option (bytes * nat).
Variable room : A → nat.
Variable layout : A → bytes.
Hypothesis body_cursor : ∀ buf i pre n x,
  cursor buf i pre n → (room x ≤ n)%nat →
  ∃ buf', body (buf, i) x = Some (buf', (i + room x)%nat) ∧
          cursor buf' (i + room x) (pre ++ layout x) (n - room x).

Lemma range_cursor xs : ∀ buf i pre n,
  cursor buf i pre n → (sum_list_with room xs ≤ n)%nat →
  ∃ buf', range body (buf, i) xs = Some (buf', (i + sum_list_with room xs)%nat) ∧
          cursor buf' (i + sum_list_with room xs) (pre ++ concat (layout <$> xs))
                 (n - sum_list_with room xs).
Proof.
  induction xs as [|x xs IH]; intros buf i pre n Hc Hn; simpl in *.
  - exists buf. split; [by rewrite Nat.add_0_r|].
    apply (cursor_eq _ _ _ _ _ _ _ Hc); [by rewrite app_nil_r|lia..].
  - destruct (body_cursor buf i pre n x Hc) as (buf1 & E1 & C1); [lia|].
    rewrite E1. simpl.
    destruct (IH _ _ _ _ C1) as (buf2 & E2 & C2); [lia|].
    rewrite E2. exists buf2. split.
    + f_equal. f_equal. lia.
    + apply (cursor_eq _ _ _ _ _ _ _ C2); [by rewrite <- (assoc_L (++))|lia..].
Qed.
End range_cursor.

Lemma leafNode_record_layout asRoot values :
  leafNode_record asRoot values = Some (leafNode_layout asRoot values).
Proof.
  unfold leafNode_record. cbv zeta.
  pose proof (cursor_make (leafNode_size values + 4)) as C0.
  unfold leafNode_size in *.
  do 3 cursor_step.
  match goal with C : cursor ?b ?j ?pre ?n |- _ =>
    destruct (range_cursor put_leafValue leafValue_size leafEntry_layout
                put_leafValue_cursor values b (0 + 1 + 4 + 4) pre n) as (b' & E & C');
      [by (apply (cursor_index _ _ _ _ _ C); simpl; lia) | simpl in *; lia | clear C]
  end.
  rewrite E. cbn [mbind option_bind]. clear E.
  destruct asRoot.
  - cursor_step.
    match goal with C : cursor _ _ _ _ |- _ => rewrite (slice_to_cursor _ _ _ _ C) end.
    by (f_equal; unfold leafNode_layout, leafNode_size; rewrite <- ?(assoc_L (++)), ?app_nil_r).
  - cbn [mbind option_bind].
    rewrite (slice_to_cursor _ _ _ _ C').
    by (f_equal; unfold leafNode_layout, leafNode_size; rewrite <- ?(assoc_L (++)), ?app_nil_r).
Qed.

Lemma innerNode_record_layout asRoot nodes :
  innerNode_record asRoot nodes = Some (innerNode_layout asRoot nodes offset).
Proof.
  unfold innerNode_record. cbv zeta.
  pose proof (cursor_make (innerNode_size nodes + 4)) as C0.
  unfold innerNode_size in *.
  do 3 cursor_step.
  set (body := λ '(buf, i) c,
         '(buf, n) ← writeNodeRefTo c buf i; Some (buf, (i + n)%nat)).
  assert (∀ bf i pre n c,
    cursor bf i pre n → (childRef_size c ≤ n)%nat →
    ∃ bf', body (bf, i) c = Some (bf', (i + childRef_size c)%nat) ∧
           cursor bf' (i + childRef_size c) (pre ++ childRef_layout c (offset c))
                  (n - childRef_size c)) as Hbody.
  { intros bf i pre n c Hc Hn.
    destruct (writeNodeRefTo_cursor c bf i pre n Hc Hn) as (bf' & E & C').
    unfold body. rewrite E. eauto. }
  match goal with C : cursor ?b ?j ?pre ?n |- _ =>
    destruct (range_cursor body childRef_size (λ c, childRef_layout c (offset c))
                Hbody nodes b (0 + 1 + 4 + 4) pre n) as (b' & E & C');
      [by (apply (cursor_index _ _ _ _ _ C); simpl; lia) | simpl in *; lia | clear C]
  end.
  rewrite E. cbn [mbind option_bind]. clear E.
  destruct asRoot.
  - cursor_step.
    match goal with C : cursor _ _ _ _ |- _ => rewrite (slice_to_cursor _ _ _ _ C) end.
    by (f_equal; unfold innerNode_layout, innerNode_size; rewrite <- ?(assoc_L (++)), ?app_nil_r).
  - cbn [mbind option_bind].
    rewrite (slice_to_cursor _ _ _ _ C').
    by (f_equal; unfold innerNode_layout, innerNode_size; rewrite <- ?(assoc_L (++)), ?app_nil_r).
Qed.

(** ** Machine integers *)

Lemma wrap64_range x : - 2 ^ 63 ≤ wrap64 x < 2 ^ 63.
Proof.
  unfold wrap64.
  pose proof (Z.mod_pos_bound (x + 2 ^ 63) (2 ^ 64) ltac:(lia)). lia.
Qed.

Lemma wrap64_small x : - 2 ^ 63 ≤ x < 2 ^ 63 → wrap64 x = x.
Proof.
  intros H. unfold wrap64. rewrite Z.mod_small; lia.
Qed.

Lemma wrap64_idemp x : wrap64 (wrap64 x) = wrap64 x.
Proof. apply wrap64_small, wrap64_range. Qed.

Lemma wrap64_even x : Z.even (wrap64 x) = Z.even x.
Proof.
  unfold wrap64.
  rewrite (Z.mod_eq (x + 2 ^ 63) (2 ^ 64)) by lia.
  replace (x + 2 ^ 63 - 2 ^ 64 * ((x + 2 ^ 63) / 2 ^ 64) - 2 ^ 63)
    with (x + 2 * (- 2 ^ 63 * ((x + 2 ^ 63) / 2 ^ 64))) by lia.
  apply Z.even_add_mul_2.
Qed.

(** Equations between sums of wrapped integers. *)
Ltac wrap_lia :=
  unfold len, int, wrap64 in *;
  change (2 ^ 63) with 9223372036854775808 in *;
  change (2 ^ 64) with 18446744073709551616 in *;
  Z.to_euclidean_division_equations; lia.

Lemma len_idemp {A} (l : list A) : wrap64 (0 + len l) = len l.
Proof. unfold len, int. rewrite Z.add_0_l. apply wrap64_idemp. Qed.

(** ** The helper *)

(** A sink that takes all it is offered ends the loop at the first pass,
    holding the buffer once. *)
Lemma writeTo_buffer fuel buf w :
  writeTo bufferWrite (S fuel) buf w = Some (w ++ buf, None).
Proof.
  unfold writeTo. simpl. rewrite len_idemp, Z.eqb_refl. done.
Qed.

(** A write error ends the loop and is the result. *)
Lemma writeTo_error {W} (Write : W → bytes → W * Z * option error) fuel buf w w' n e :
  Write w buf = (w', n, Some e) →
  writeTo Write (S fuel) buf w = Some (w', Some e).
Proof. intros H. unfold writeTo. simpl. by rewrite H. Qed.

(** Offered three bytes, a sink that takes two at a time is offered the
    whole buffer again at each pass; the count stays even and the loop has
    no exit. *)
Lemma writeTo_loop_chunk2 fuel : ∀ w wn,
  Z.even wn = true →
  writeTo_loop (chunkWrite 2) fuel [1; 2; 3] w wn = None.
Proof.
  induction fuel as [|fuel IH]; intros w wn Hev; [done|].
  change (writeTo_loop (chunkWrite 2) (S fuel) [1; 2; 3] w wn)
    with (if len [1; 2; 3] =? wrap64 (wn + len [1; 2])
          then Some (w ++ [1; 2], @None error)
          else writeTo_loop (chunkWrite 2) fuel [1; 2; 3] (w ++ [1; 2])
                 (wrap64 (wn + len [1; 2]))).
  assert (Z.even (wrap64 (wn + len [1; 2])) = true) as Hev'.
  { rewrite wrap64_even. change (len [1; 2]) with 2.
    by rewrite Z.even_add, Hev. }
  destruct (Z.eqb_spec (len [1; 2; 3]) (wrap64 (wn + len [1; 2]))) as [E|_].
  - rewrite <- E in Hev'. done.
  - by apply IH.
Qed.

(** ** What a serialisation leaves as it is *)

Ltac run_cases H :=
  repeat match type of H with
  | (if ?b then _ else _) = _ => destruct b eqn:?
  | match ?x with _ => _ end = _ => destruct x eqn:?
  | (let '(_, _) := ?x in _) = _ => destruct x eqn:?
  end; try discriminate H.

Section Frame.
Context {W : Type}.
Variable Write : W → bytes → W * Z * option error.
Variable fuel : nat.

Local Abbreviation writeTo_node := (node_writeTo Write fuel).

Lemma writeChildren_no_commit writeOpts cs :
  CommitLog writeOpts = false →
  Forall (λ c, ∀ st asRoot o c' st' r,
            CommitLog o = false →
            writeTo_node c st asRoot o = Done (c', st', r) → c' = c) cs →
  ∀ st cw cs' st' r,
    writeChildren writeTo_node writeOpts cs st cw = Done (cs', st', r) → cs' = cs.
Proof.
  intros Hcl. induction 1 as [|c cs Hc _ IH]; intros st cw cs' st' r H; simpl in H.
  - by inversion H.
  - run_cases H;
  repeat match goal with
  | Hx : node_writeTo _ _ c _ _ _ = Done _ |- _ => apply Hc in Hx; [|done]
  | Hx : writeChildren _ _ _ _ _ = Done _ |- _ => apply IH in Hx
  end; by simplify_eq.
Qed.

Lemma node_writeTo_no_commit n : ∀ st asRoot writeOpts n' st' r,
  CommitLog writeOpts = false →
  writeTo_node n st asRoot writeOpts = Done (n', st', r) → n' = n.
Proof.
  induction n as [off cts mut nodes IH|off cts mut values
                 |off mk t sz mut node_ stored _ IH] using node_induction;
    intros st asRoot writeOpts n' st' r Hcl H; simpl in H.
  - destruct (OnlyMutated writeOpts && (0 <? off)); [by simplify_eq|].
    destruct (writeChildren _ _ _ _ _) as [[[nodes' st1] [[offsets cw] [e|]]]| |] eqn:Hch;
      try discriminate H.
    + apply (writeChildren_no_commit _ _ Hcl IH) in Hch. by simplify_eq.
    + apply (writeChildren_no_commit _ _ Hcl IH) in Hch. subst nodes'.
      unfold innerNode_emit in H. rewrite Hcl in H.
      run_cases H; by simplify_eq.
  - unfold leafNode_writeTo in H. rewrite Hcl in H.
    run_cases H; by simplify_eq.
  - destruct (OnlyMutated writeOpts && ref_durable node_); [by simplify_eq|].
    destruct stored as [e|m]; [by simplify_eq|].
    destruct (writeTo_node m _ _ _) as [[[m' st1] r1]| |] eqn:Hm; try discriminate H.
    apply (IH m eq_refl) in Hm; [|done]. by simplify_eq.
Qed.

Lemma writeChildren_erase writeOpts cs :
  Forall (λ c, ∀ st asRoot o c' st' r,
            writeTo_node c st asRoot o = Done (c', st', r) →
            erase_offsets c' = erase_offsets c) cs →
  ∀ st cw cs' st' r,
    writeChildren writeTo_node writeOpts cs st cw = Done (cs', st', r) →
    erase_offsets <$> cs' = erase_offsets <$> cs.
Proof.
  induction 1 as [|c cs Hc _ IH]; intros st cw cs' st' r H; simpl in H.
  - by inversion H.
  - run_cases H;
  repeat match goal with
  | Hx : node_writeTo _ _ c _ _ _ = Done _ |- _ => apply Hc in Hx
  | Hx : writeChildren _ _ _ _ _ = Done _ |- _ => apply IH in Hx
  end; simplify_eq; rewrite ?fmap_cons; by f_equal.
Qed.

Lemma node_writeTo_erase n : ∀ st asRoot writeOpts n' st' r,
  writeTo_node n st asRoot writeOpts = Done (n', st', r) →
  erase_offsets n' = erase_offsets n.
Proof.
  induction n as [off cts mut nodes IH|off cts mut values
                 |off mk t sz mut node_ stored _ IH] using node_induction;
    intros st asRoot writeOpts n' st' r H; simpl in H.
  - destruct (OnlyMutated writeOpts && (0 <? off)); [by simplify_eq|].
    destruct (writeChildren _ _ _ _ _) as [[[nodes' st1] [[offsets cw] [e|]]]| |] eqn:Hch;
      try discriminate H.
    + apply (writeChildren_erase _ _ IH) in Hch. simplify_eq. simpl. f_equal. exact Hch.
    + apply (writeChildren_erase _ _ IH) in Hch.
      unfold innerNode_emit in H.
      run_cases H; simplify_eq; try destruct (CommitLog writeOpts); simpl; f_equal; exact Hch.
  - unfold leafNode_writeTo in H.
    run_cases H; simplify_eq; try done; by destruct (CommitLog writeOpts).
  - destruct (OnlyMutated writeOpts && ref_durable node_); [by simplify_eq|].
    destruct stored as [e|m]; [by simplify_eq|].
    destruct (writeTo_node m _ _ _) as [[[m' st1] r1]| |] eqn:Hm; try discriminate H.
    apply (IH m eq_refl) in Hm. simplify_eq. simpl. f_equal. f_equal. exact Hm.
Qed.
End Frame.

(** ** Sizes do not depend on offsets *)

Lemma maxKey_erase n : maxKey (erase_offsets n) = maxKey n.
Proof.
  induction n as [off cts mut nodes IH|off cts mut values
                 |off mk t sz mut node_ stored _ _] using node_induction;
    [|done..].
  simpl. induction IH as [|c cs Hc Hcs IHcs]; [done|].
  rewrite fmap_cons. destruct cs as [|c' cs]; [exact Hc|exact IHcs].
Qed.

Lemma childRef_size_erase n n' :
  erase_offsets n' = erase_offsets n → childRef_size n' = childRef_size n.
Proof.
  intros H. unfold childRef_size.
  by rewrite <- (maxKey_erase n'), H, maxKey_erase.
Qed.

Lemma innerNode_size_erase cs cs' :
  erase_offsets <$> cs' = erase_offsets <$> cs →
  innerNode_size cs' = innerNode_size cs.
Proof.
  unfold innerNode_size. intros H. f_equal. revert cs' H.
  induction cs as [|c cs IH]; intros [|c' cs'] H; try done.
  rewrite !fmap_cons in H. injection H as Hc Hcs.
  cbn [sum_list_with].
  by rewrite (childRef_size_erase _ _ Hc), (IH _ Hcs).
Qed.

Lemma length_leafNode_layout asRoot values :
  length (leafNode_layout asRoot values)
  = (leafNode_size values + if asRoot then 4 else 0)%nat.
Proof.
  unfold leafNode_layout, leafNode_size.
  assert (length (concat (leafEntry_layout <$> values))
          = sum_list_with leafValue_size values) as Hsum.
  { induction values as [|v vs IH]; [done|].
    rewrite fmap_cons. cbn [concat sum_list_with].
    by rewrite length_app, length_leafEntry_layout, IH. }
  rewrite !length_app, !length_be, Hsum. simpl.
  destruct asRoot; rewrite ?length_be; simpl; lia.
Qed.

Lemma length_innerNode_layout asRoot nodes childOffset :
  length (innerNode_layout asRoot nodes childOffset)
  = (innerNode_size nodes + if asRoot then 4 else 0)%nat.
Proof.
  unfold innerNode_layout, innerNode_size.
  assert (length (concat ((λ c, childRef_layout c (childOffset c)) <$> nodes))
          = sum_list_with childRef_size nodes) as Hsum.
  { induction nodes as [|c cs IH]; [done|].
    rewrite fmap_cons. cbn [concat sum_list_with].
    by rewrite length_app, length_childRef_layout, IH. }
  rewrite !length_app, !length_be, Hsum. simpl.
  destruct asRoot; rewrite ?length_be; simpl; lia.
Qed.

(** ** Serialising into a [bytes.Buffer] *)

Local Arguments writeTo : simpl never.
Local Arguments innerNode_emit : simpl never.
Local Arguments leafNode_writeTo : simpl never.

Section Buffer.
Variable fuel : nat.

Local Abbreviation writeTo_node := (node_writeTo bufferWrite (S fuel)).

Lemma writeChildren_no_more_bytes cs :
  Forall (no_more_bytes fuel) cs →
  ∀ st1 st2 o1 o2 cw1 cw2 cs1 st1' offs1 cw1',
    OnlyMutated o1 = false → OnlyMutated o2 = true →
    writeChildren writeTo_node o1 cs st1 cw1 = Done (cs1, st1', (offs1, cw1', None)) →
    ∃ cs2 st2' offs2 cw2' out1 out2,
      writeChildren writeTo_node o2 cs st2 cw2 = Done (cs2, st2', (offs2, cw2', None)) ∧
      sink st1' = sink st1 ++ out1 ∧ sink st2' = sink st2 ++ out2 ∧
      (length out2 ≤ length out1)%nat.
Proof.
  induction 1 as [|c cs Hc _ IH];
    intros st1 st2 o1 o2 cw1 cw2 cs1 st1' offs1 cw1' Ho1 Ho2 H; simpl in H |- *.
  - simplify_eq. exists [], st2, [], cw2, [], []. by rewrite !app_nil_r.
  - rewrite Ho1 in H. rewrite Ho2. simpl in H |- *.
    destruct (writeTo_node c st1 false _) as [[[c1 st1a] [[o w] [e|]]]| |] eqn:Hc1;
      try discriminate H.
    destruct (writeChildren _ _ cs st1a _) as [[[cs1' st1b] [[offs cw] err]]| |] eqn:Hcs1;
      try discriminate H.
    simplify_eq.
    destruct (Hc st1 st2 false
                {| OnlyMutated := false;
                   BaseOffset := wrap64 (BaseOffset o1 + cw1);
                   CommitLog := CommitLog o1 |}
                {| OnlyMutated := true;
                   BaseOffset := wrap64 (BaseOffset o2 + cw2);
                   CommitLog := CommitLog o2 |} _ _ _ _ eq_refl eq_refl Hc1)
      as (c2 & st2a & o2' & w2 & out1 & out2 & E2 & S1 & S2 & Hle).
    destruct (mutated c); simpl.
    + rewrite E2.
      destruct (IH st1a st2a o1 o2 _ (wrap64 (cw2 + w2)) _ _ _ _ Ho1 Ho2 Hcs1)
        as (cs2 & st2b & offs2 & cw2' & out1' & out2' & E2' & S1' & S2' & Hle').
      rewrite E2'.
      eexists _, _, _, _, (out1 ++ out1'), (out2 ++ out2').
      split; [done|].
      rewrite S1', S1, S2', S2, !(assoc_L (++)), !length_app. split_and!; [done..|lia].
    + destruct (IH st1a st2 o1 o2 _ cw2 _ _ _ _ Ho1 Ho2 Hcs1)
        as (cs2 & st2b & offs2 & cw2' & out1' & out2' & E2' & S1' & S2' & Hle').
      rewrite E2'.
      eexists _, _, _, _, (out1 ++ out1'), out2'.
      split; [done|].
      rewrite S1', S1, S2', !(assoc_L (++)), !length_app. split_and!; [done..|lia].
Qed.

Lemma writeTo_node_erase : ∀ cs : list node,
  Forall (λ c, ∀ st asRoot o c' st' r,
            writeTo_node c st asRoot o = Done (c', st', r) →
            erase_offsets c' = erase_offsets c) cs.
Proof.
  intros cs. apply Forall_forall. intros c _ st asRoot o c' st' r.
  apply node_writeTo_erase.
Qed.

Lemma node_no_more_bytes n : no_more_bytes fuel n.
Proof.
  induction n as [off cts mut nodes IH|off cts mut values
                 |off mk t sz mut node_ stored _ IH] using node_induction;
    intros st1 st2 asRoot o1 o2 n1 st1' off1 tw1 Ho1 Ho2 H; simpl in H |- *.
  - rewrite Ho1 in H. rewrite Ho2. simpl in H |- *.
    destruct (writeChildren _ o1 _ _ _) as [[[cs1 st1a] [[offs1 cw1] [e|]]]| |] eqn:Hch1;
      try discriminate H.
    unfold innerNode_emit in H.
    rewrite innerNode_record_layout, writeTo_buffer in H. simplify_eq.
    destruct (writeChildren_no_more_bytes nodes IH st1 st2 o1 o2 0 0 _ _ _ _ Ho1 Ho2 Hch1)
      as (cs2 & st2a & offs2 & cw2 & out1 & out2 & E2 & S1 & S2 & Hle).
    destruct (0 <? off).
    + eexists _, _, _, _, (out1 ++ innerNode_layout asRoot cs1 offset), []. simpl.
      rewrite S1, (assoc_L (++)), app_nil_r. split_and!; [done..|lia].
    + rewrite E2. unfold innerNode_emit.
      rewrite innerNode_record_layout, writeTo_buffer.
      eexists _, _, _, _, (out1 ++ innerNode_layout asRoot cs1 offset),
        (out2 ++ innerNode_layout asRoot cs2 offset). simpl.
      rewrite S1, S2, !(assoc_L (++)). split_and!; [done..|].
      rewrite !length_app, !length_innerNode_layout.
      rewrite (innerNode_size_erase nodes cs1), (innerNode_size_erase nodes cs2).
      * lia.
      * apply (writeChildren_erase _ _ _ _ (writeTo_node_erase nodes)) in E2. done.
      * apply (writeChildren_erase _ _ _ _ (writeTo_node_erase nodes)) in Hch1. done.
  - unfold leafNode_writeTo in *. rewrite Ho1 in H. rewrite Ho2. simpl in H |- *.
    rewrite leafNode_record_layout, writeTo_buffer in H. simplify_eq.
    destruct (0 <? off).
    + eexists _, _, _, _, (leafNode_layout asRoot values), []. simpl.
      rewrite app_nil_r. split_and!; [done..|lia].
    + rewrite leafNode_record_layout, writeTo_buffer.
      eexists _, _, _, _, (leafNode_layout asRoot values), (leafNode_layout asRoot values).
      simpl. split_and!; done.
  - rewrite Ho1 in H. rewrite Ho2. simpl in H |- *.
    destruct stored as [e|m]; [discriminate H|].
    destruct (writeTo_node m _ _ o1) as [[[m1 st1a] r1]| |] eqn:Hm; try discriminate H.
    simplify_eq.
    destruct (IH m eq_refl (mkIo (sink st1) (loads st1 ++ [off]))
                (mkIo (sink st2) (loads st2 ++ [off])) _ _ o2 _ _ _ _ Ho1 Ho2 Hm)
      as (m2 & st2' & off2 & tw2 & out1 & out2 & E2 & S1 & S2 & Hle).
    simpl in S1, S2.
    destruct (ref_durable node_).
    + eexists _, _, _, _, out1, []. simpl. rewrite app_nil_r. split_and!; [done..|lia].
    + rewrite E2. eexists _, _, _, _, out1, out2. done.
Qed.
Lemma writeChildren_returns_growing cs :
  Forall (returns_growing fuel) cs →
  ∀ o st cw, ∃ cs' out ls r,
    writeChildren writeTo_node o cs st cw
    = Done (cs', mkIo (sink st ++ out) (loads st ++ ls), r).
Proof.
  induction 1 as [|c cs Hc _ IH]; intros o st cw; simpl.
  - exists [], [], [], ([], cw, None). rewrite !app_nil_r. by destruct st.
  - destruct (OnlyMutated o && negb (mutated c)).
    + destruct (IH o st cw) as (cs' & out & ls & [[offs cw'] e] & ->). eauto 10.
    + destruct (Hc st false {| OnlyMutated := OnlyMutated o;
                               BaseOffset := wrap64 (BaseOffset o + cw);
                               CommitLog := CommitLog o |})
        as (c' & out & ls & [[o' w] [e|]] & ->).
      * eauto 10.
      * destruct (IH o (mkIo (sink st ++ out) (loads st ++ ls)) (wrap64 (cw + w)))
          as (cs' & out' & ls' & [[offs cw'] e] & ->).
        simpl. rewrite <- !(assoc_L (++)). eauto 10.
Qed.

Lemma node_returns_growing n : returns_growing fuel n.
Proof.
  induction n as [off cts mut nodes IH|off cts mut values
                 |off mk t sz mut node_ stored _ IH] using node_induction;
    intros st asRoot o; simpl.
  - destruct (OnlyMutated o && (0 <? off)).
    { exists (innerNode off cts mut nodes), [], [], (off, 0, None).
      rewrite !app_nil_r. by destruct st. }
    destruct (writeChildren_returns_growing nodes IH o st 0)
      as (cs' & out & ls & [[offs cw] [e|]] & ->); [eauto 10|].
    unfold innerNode_emit. rewrite innerNode_record_layout, writeTo_buffer. simpl.
    rewrite <- (assoc_L (++)). eauto 10.
  - unfold leafNode_writeTo. destruct (OnlyMutated o && (0 <? off)).
    { exists (leafNode off cts mut values), [], [], (off, 0, None).
      rewrite !app_nil_r. by destruct st. }
    rewrite leafNode_record_layout, writeTo_buffer. simpl.
    eexists _, (leafNode_layout asRoot values), [], _.
    by rewrite (app_nil_r (loads st)).
  - destruct (OnlyMutated o && ref_durable node_).
    { exists (nodeRef off mk t sz mut node_ stored), [], [], (off, 0, None).
      rewrite !app_nil_r. by destruct st. }
    destruct stored as [e|m].
    { eexists _, [], [off], _. by rewrite (app_nil_r (sink st)). }
    destruct (IH m eq_refl (mkIo (sink st) (loads st ++ [off])) asRoot o)
      as (m' & out & ls & r & ->).
    simpl. rewrite <- (assoc_L (++)). eauto 10.
Qed.

Lemma writeChildren_counts_bytes cs :
  Forall (counts_bytes fuel) cs →
  ∀ o st cw cs' st' offs cw',
    writeChildren writeTo_node o cs st cw = Done (cs', st', (offs, cw', None)) →
    ∃ out, sink st' = sink st ++ out ∧
           wrap64 cw' = wrap64 (cw + Z.of_nat (length out)).
Proof.
  induction 1 as [|c cs Hc _ IH]; intros o st cw cs' st' offs cw' H; simpl in H.
  - simplify_eq. exists []. rewrite app_nil_r. split; [done|].
    f_equal. simpl. lia.
  - destruct (OnlyMutated o && negb (mutated c)).
    + destruct (writeChildren _ _ cs st cw) as [[[cs1 st1] [[offs1 cw1] e]]| |] eqn:E;
        try discriminate H.
      simplify_eq. by apply IH in E.
    + destruct (writeTo_node c st false _) as [[[c1 st1] [[o1 w] [e|]]]| |] eqn:Ec;
        try discriminate H.
      destruct (writeChildren _ _ cs st1 _) as [[[cs1 st2] [[offs1 cw1] e]]| |] eqn:E;
        try discriminate H.
      simplify_eq.
      apply Hc in Ec as (outc & Sc & Hw).
      apply IH in E as (outr & Sr & Hcw).
      exists (outc ++ outr). rewrite Sr, Sc, (assoc_L (++)). split; [done|].
      rewrite length_app, Nat2Z.inj_add. subst w. clear -Hcw. wrap_lia.
Qed.

Lemma node_counts_bytes n : counts_bytes fuel n.
Proof.
  induction n as [off cts mut nodes IH|off cts mut values
                 |off mk t sz mut node_ stored _ IH] using node_induction;
    intros st asRoot o n' st' off' tw H; simpl in H.
  - destruct (OnlyMutated o && (0 <? off)).
    { simplify_eq. exists []. by rewrite app_nil_r. }
    destruct (writeChildren _ _ _ _ _) as [[[cs1 st1] [[offs1 cw1] [e|]]]| |] eqn:Hch;
      try discriminate H.
    apply (writeChildren_counts_bytes nodes IH) in Hch as (outc & Sc & Hcw).
    unfold innerNode_emit in H.
    rewrite innerNode_record_layout, writeTo_buffer in H. simplify_eq.
    exists (outc ++ innerNode_layout asRoot cs1 offset). cbn [sink].
    rewrite Sc, (assoc_L (++)). split; [done|].
    rewrite length_app, length_innerNode_layout. unfold int.
    destruct asRoot; rewrite !Nat2Z.inj_add; simpl (Z.of_nat 4); simpl (Z.of_nat 0);
      clear -Hcw; wrap_lia.
  - unfold leafNode_writeTo in H.
    destruct (OnlyMutated o && (0 <? off)).
    { simplify_eq. exists []. by rewrite app_nil_r. }
    rewrite leafNode_record_layout, writeTo_buffer in H. simplify_eq.
    exists (leafNode_layout asRoot values). cbn [sink]. split; [done|].
    rewrite length_leafNode_layout. unfold int.
    destruct asRoot; rewrite !Nat2Z.inj_add; simpl (Z.of_nat 4); simpl (Z.of_nat 0);
      wrap_lia.
  - destruct (OnlyMutated o && ref_durable node_).
    { simplify_eq. exists []. by rewrite app_nil_r. }
    destruct stored as [e|m]; [discriminate H|].
    destruct (writeTo_node m _ _ _) as [[[m' st1] r1]| |] eqn:Hm; try discriminate H.
    simplify_eq. by apply (IH m eq_refl) in Hm.
Qed.
End Buffer.

(** ** The log of the node store only grows *)

Section Loads.
Context {W : Type}.
Variable Write : W → bytes → W * Z * option error.
Variable fuel : nat.

Local Abbreviation writeTo_node := (node_writeTo Write fuel).


End Loads.

(** * The properties of the specification *)

(** ** The byte-write helper *)

(** C2, as the code has it. A sink that takes the whole buffer gets it
    once, and a sink that fails gets nothing more and its error is returned.
    But after a short write the helper offers the whole buffer again instead
    of the bytes still missing. Against a sink that takes one byte per call,
    the buffer [1; 2] is reported written after two passes and the sink holds
    [1; 1]: the first byte twice, the second never. Against a sink that takes
    two bytes per call, the buffer [1; 2; 3] is never reported written,
    whatever the number of passes. *)
Theorem writeTo_short_write_resends :
  (∀ fuel buf w, writeTo bufferWrite (S fuel) buf w = Some (w ++ buf, None))
  ∧ (∀ e fuel buf w, writeTo (failWrite e) (S fuel) buf w = Some (w, Some e))
  ∧ writeTo (chunkWrite 1) 2 [1; 2] [] = Some ([1; 1], None)
  ∧ ∀ fuel, writeTo (chunkWrite 2) fuel [1; 2; 3] [] = None.
Proof.
  split_and!.
  - apply writeTo_buffer.
  - intros e fuel buf w. by apply (writeTo_error (failWrite e) fuel buf w w 0 e).
  - by vm_compute.
  - intros fuel. by apply writeTo_loop_chunk2.
Qed.

(** ** Child references *)

(** C3, as the code has it. The record of an inner node holds one reference
    per child, laid out as maxKeyLen(4B) | maxKeyBytes | commitTimestamp(8B) |
    childSize(4B) | childOffset(8B), and the offset it records is the [off]
    field the child has when the record is built. An inner node over one
    unwritten leaf is dumped at base offset 100 with [CommitLog] off: the loop
    over the children writes the leaf at 100 and stores 100 in [offsets], but
    the child's own [off] field is still zero, and the parent records child
    offset 0. *)
Theorem innerNode_records_stale_child_offset :
  (∀ asRoot nodes,
     innerNode_record asRoot nodes
     = Some ([if asRoot then RootInnerNodeType else InnerNodeType]
             ++ be 4 (uint32 (int (innerNode_size nodes)))
             ++ be 4 (uint32 (len nodes))
             ++ concat ((λ c,
                  be 4 (uint32 (len (maxKey c))) ++ maxKey c ++
                  be 8 (uint64 (node_ts c)) ++ be 4 (uint32 (node_size c)) ++
                  be 8 (uint64 (offset c))) <$> nodes)
             ++ (if asRoot then be 4 (uint32 (int (innerNode_size nodes))) else [])))
  ∧
  let parent := innerNode 0 7 true [leaf_new] in
  let writeOpts := {| OnlyMutated := false; BaseOffset := 100; CommitLog := false |} in
  let st := mkIo [] [] in
  writeChildren (node_writeTo bufferWrite 1) writeOpts [leaf_new] st 0
  = Done ([leaf_new], mkIo (leafNode_layout false [mkLeafValue [107] [1; 2] 7 0]) [],
          ([100], 36, None))
  ∧ node_writeTo bufferWrite 1 parent st true writeOpts
    = Done (parent,
            mkIo (leafNode_layout false [mkLeafValue [107] [1; 2] 7 0]
                  ++ innerNode_layout true [leaf_new] (λ _, 0)) [],
            (136, 74, None))
  ∧ innerNode_layout true [leaf_new] (λ _, 0)
    ≠ innerNode_layout true [leaf_new] (λ _, 100).
Proof.
  split; [apply innerNode_record_layout|].
  split_and!; [by vm_compute..|].
  vm_compute. discriminate.
Qed.

(** ** Incremental against full dumps *)

(** C6 fails as stated: a full dump stops at the first reference the node
    store cannot resolve, an incremental dump does not ask for it. For an
    inner node over an unwritten leaf and such a reference, the full dump
    leaves the 36 bytes of the leaf in the buffer and returns the error of
    the store with a count of zero; the incremental dump returns no error,
    with the leaf and the 63 bytes of the root record in the buffer and a
    count of 99. *)
Lemma full_dump_can_write_less :
  let graph := innerNode 0 7 true [leaf_new; ref_lost] in
  let leaf_bytes := leafNode_layout false [mkLeafValue [107] [1; 2] 7 0] in
  node_writeTo bufferWrite 1 graph (mkIo [] []) true
    {| OnlyMutated := false; BaseOffset := 0; CommitLog := false |}
  = Done (graph, mkIo leaf_bytes [40], (0, 0, Some (ErrIO 5)))
  ∧ node_writeTo bufferWrite 1 graph (mkIo [] []) true
      {| OnlyMutated := true; BaseOffset := 0; CommitLog := false |}
    = Done (graph,
            mkIo (leaf_bytes ++ innerNode_layout true [leaf_new; ref_lost] offset) [],
            (36, 99, None))
  ∧ (length leaf_bytes
     < length (leaf_bytes ++ innerNode_layout true [leaf_new; ref_lost] offset))%nat.
Proof.
  split_and!; [by vm_compute..|]. vm_compute. lia.
Qed.

(** C6, amended. Whenever the dump of a node graph into a buffer with
    [OnlyMutated] off returns without an error, the dump of the same graph
    with [OnlyMutated] on returns without an error too and hands the sink no
    more bytes. And an inner or leaf node whose offset is set ([off > 0]),
    written with [OnlyMutated] on, leaves the sink as it is, whatever the
    sink, and returns its offset with a count of zero. *)
Theorem OnlyMutated_writes_no_more :
  (∀ fuel n st asRoot base commit n1 st1 off1 tw1,
     node_writeTo bufferWrite (S fuel) n st asRoot
       {| OnlyMutated := false; BaseOffset := base; CommitLog := commit |}
     = Done (n1, st1, (off1, tw1, None)) →
     ∃ n2 st2 off2 tw2 out1 out2,
       node_writeTo bufferWrite (S fuel) n st asRoot
         {| OnlyMutated := true; BaseOffset := base; CommitLog := commit |}
       = Done (n2, st2, (off2, tw2, None)) ∧
       sink st1 = sink st ++ out1 ∧ sink st2 = sink st ++ out2 ∧
       (length out2 ≤ length out1)%nat)
  ∧ (∀ W (Write : W → bytes → W * Z * option error) fuel st asRoot base commit
       off cts mut nodes,
       0 < off →
       node_writeTo Write fuel (innerNode off cts mut nodes) st asRoot
         {| OnlyMutated := true; BaseOffset := base; CommitLog := commit |}
       = Done (innerNode off cts mut nodes, st, (off, 0, None)))
  ∧ (∀ W (Write : W → bytes → W * Z * option error) fuel st asRoot base commit
       off cts mut values,
       0 < off →
       node_writeTo Write fuel (leafNode off cts mut values) st asRoot
         {| OnlyMutated := true; BaseOffset := base; CommitLog := commit |}
       = Done (leafNode off cts mut values, st, (off, 0, None))).
Proof.
  split_and!.
  - intros fuel n st asRoot base commit n1 st1 off1 tw1 H.
    by apply (node_no_more_bytes fuel n st st asRoot
                {| OnlyMutated := false; BaseOffset := base; CommitLog := commit |}
                {| OnlyMutated := true; BaseOffset := base; CommitLog := commit |}
                n1 st1 off1 tw1).
  - intros W Write fuel st asRoot base commit off cts mut nodes Hoff. simpl.
    by destruct (Z.ltb_spec 0 off); [|lia].
  - intros W Write fuel st asRoot base commit off cts mut values Hoff. simpl.
    unfold leafNode_writeTo. simpl.
    by destruct (Z.ltb_spec 0 off); [|lia].
Qed.

Lemma OnlyMutated_writes_no_more_witness :
  (∃ n2 st2 off2 tw2 out1 out2,
     node_writeTo bufferWrite 1 inner_new (mkIo [] []) true
       {| OnlyMutated := true; BaseOffset := 0; CommitLog := false |}
     = Done (n2, st2, (off2, tw2, None)) ∧
     sink (mkIo (leafNode_layout false [mkLeafValue [97] [9] 5 3]
                 ++ leafNode_layout false [mkLeafValue [107] [1; 2] 7 0]
                 ++ innerNode_layout true [leaf_old; leaf_new] offset) [])
     = sink (mkIo [] []) ++ out1 ∧
     sink st2 = sink (mkIo [] []) ++ out2 ∧
     (length out2 ≤ length out1)%nat)
  ∧ node_writeTo bufferWrite 1 leaf_old (mkIo [] []) true
      {| OnlyMutated := true; BaseOffset := 0; CommitLog := false |}
    = Done (leaf_old, mkIo [] [], (40, 0, None)).
Proof.
  split.
  - eapply (proj1 OnlyMutated_writes_no_more 0%nat inner_new (mkIo [] []) true 0 false).
    vm_compute. reflexivity.
  - apply (proj2 (proj2 OnlyMutated_writes_no_more)). lia.
Defined.

(** ** Root records *)

Lemma leafNode_root_record values :
  leafNode_layout true values
  = [RootLeafNodeType] ++ be 4 (uint32 (int (leafNode_size values)))
    ++ (be 4 (uint32 (len values)) ++ concat (leafEntry_layout <$> values))
    ++ be 4 (uint32 (int (leafNode_size values))).
Proof. unfold leafNode_layout. by rewrite <- !(assoc_L (++)). Qed.

Lemma innerNode_root_record nodes childOffset :
  innerNode_layout true nodes childOffset
  = [RootInnerNodeType] ++ be 4 (uint32 (int (innerNode_size nodes)))
    ++ (be 4 (uint32 (len nodes))
        ++ concat ((λ c, childRef_layout c (childOffset c)) <$> nodes))
    ++ be 4 (uint32 (int (innerNode_size nodes))).
Proof. unfold innerNode_layout. by rewrite <- !(assoc_L (++)). Qed.

Lemma leafNode_written_as_root fuel off cts mut values st o :
  OnlyMutated o && (0 <? off) = false →
  node_writeTo bufferWrite (S fuel) (leafNode off cts mut values) st true o
  = Done (leafNode (if CommitLog o then BaseOffset o else off) cts mut values,
          mkIo (sink st ++ leafNode_layout true values) (loads st),
          (BaseOffset o, wrap64 (int (leafNode_size values) + 4), None)).
Proof.
  intros Hskip. simpl. unfold leafNode_writeTo. rewrite Hskip.
  rewrite leafNode_record_layout, writeTo_buffer. by destruct (CommitLog o).
Qed.

Lemma innerNode_written_as_root fuel off cts mut nodes st o :
  OnlyMutated o && (0 <? off) = false →
  ∃ nodes' before ls offsets cw e,
    writeChildren (node_writeTo bufferWrite (S fuel)) o nodes st 0
    = Done (nodes', mkIo (sink st ++ before) (loads st ++ ls), (offsets, cw, e))
    ∧ node_writeTo bufferWrite (S fuel) (innerNode off cts mut nodes) st true o
      = match e with
        | Some err =>
            Done (innerNode off cts mut nodes',
                  mkIo (sink st ++ before) (loads st ++ ls), (0, 0, Some err))
        | None =>
            Done (innerNode (if CommitLog o then wrap64 (BaseOffset o + cw) else off)
                    cts mut nodes',
                  mkIo (sink st ++ before ++ innerNode_layout true nodes' offset)
                    (loads st ++ ls),
                  (wrap64 (BaseOffset o + cw),
                   wrap64 (wrap64 (cw + int (innerNode_size nodes')) + 4), None))
        end.
Proof.
  intros Hskip.
  destruct (writeChildren_returns_growing fuel nodes
              (proj2 (Forall_forall _ _) (λ c _, node_returns_growing fuel c)) o st 0)
    as (cs' & out & ls & [[offs cw] e] & Hch).
  exists cs', out, ls, offs, cw, e. split; [done|].
  simpl. rewrite Hskip, Hch. destruct e as [err|]; [done|].
  unfold innerNode_emit. rewrite innerNode_record_layout, writeTo_buffer. simpl.
  rewrite <- (assoc_L (++)). by destruct (CommitLog o).
Qed.

Lemma node_written_as_root fuel n : ∀ st o n' st' off tw,
  node_writeTo bufferWrite (S fuel) n st true o = Done (n', st', (off, tw, None)) →
  if passed_over o n
  then sink st' = sink st ∧ tw = 0
  else ∃ before,
         sink st' = sink st ++ before ++
           match resolved n' with
           | leafNode _ _ _ values => leafNode_layout true values
           | innerNode _ _ _ nodes => innerNode_layout true nodes offset
           | nodeRef _ _ _ _ _ _ _ => []
           end
         ∧ is_ref (resolved n') = false.
Proof.
  induction n as [off cts mut nodes _|off cts mut values
                 |off mk t sz mut node_ stored _ IH] using node_induction;
    intros st o n' st' off' tw H.
  - cbn [passed_over]. destruct (OnlyMutated o && (0 <? off)) eqn:Hskip.
    { simpl in H. rewrite Hskip in H. by simplify_eq. }
    destruct (innerNode_written_as_root fuel off cts mut nodes st o Hskip)
      as (cs' & out & ls & offs & cw & e & _ & E).
    rewrite E in H. destruct e; simplify_eq. by exists out.
  - cbn [passed_over]. destruct (OnlyMutated o && (0 <? off)) eqn:Hskip.
    { simpl in H. unfold leafNode_writeTo in H. rewrite Hskip in H. by simplify_eq. }
    rewrite leafNode_written_as_root in H by done. simplify_eq. by exists [].
  - cbn [passed_over]. simpl in H.
    destruct (OnlyMutated o && ref_durable node_); [by simplify_eq|].
    destruct stored as [e|m]; [discriminate H|].
    destruct (node_writeTo _ _ m _ _ _) as [[[m' st1] r1]| |] eqn:Hm; try discriminate H.
    simplify_eq. cbn [orb resolved].
    apply (IH m eq_refl _ _ _ _ _ _ Hm).
Qed.

(** C7. A node written as root into a buffer leaves a record that carries
    its size field twice: the four bytes right after the one-byte root tag
    and the four bytes after the payload are the same, the big-endian size of
    the node. A root leaf that is not passed over appends exactly
    tag | size | count, entries | size. A root inner node that is not passed
    over first runs its children, and when they return no error appends
    exactly tag | size | count, child references | size after what they
    wrote. A reference written as root hands the call on with [asRoot]
    as it is: whichever node is written as root without error, either the
    call was passed over and nothing was written, or the buffer ends with the
    mirrored record of the inner node or leaf that was reached. *)
Theorem root_record_size_mirror :
  (∀ fuel off cts mut values st o,
     OnlyMutated o && (0 <? off) = false →
     node_writeTo bufferWrite (S fuel) (leafNode off cts mut values) st true o
     = Done (leafNode (if CommitLog o then BaseOffset o else off) cts mut values,
             mkIo (sink st
                   ++ [RootLeafNodeType]
                   ++ be 4 (uint32 (int (leafNode_size values)))
                   ++ (be 4 (uint32 (len values)) ++ concat (leafEntry_layout <$> values))
                   ++ be 4 (uint32 (int (leafNode_size values))))
                  (loads st),
             (BaseOffset o, wrap64 (int (leafNode_size values) + 4), None)))
  ∧ (∀ fuel off cts mut nodes st o,
       OnlyMutated o && (0 <? off) = false →
       ∃ nodes' before ls offsets cw e,
         writeChildren (node_writeTo bufferWrite (S fuel)) o nodes st 0
         = Done (nodes', mkIo (sink st ++ before) (loads st ++ ls), (offsets, cw, e))
         ∧ node_writeTo bufferWrite (S fuel) (innerNode off cts mut nodes) st true o
           = match e with
             | Some err =>
                 Done (innerNode off cts mut nodes',
                       mkIo (sink st ++ before) (loads st ++ ls), (0, 0, Some err))
             | None =>
                 Done (innerNode (if CommitLog o then wrap64 (BaseOffset o + cw) else off)
                         cts mut nodes',
                       mkIo (sink st ++ before
                             ++ [RootInnerNodeType]
                             ++ be 4 (uint32 (int (innerNode_size nodes')))
                             ++ (be 4 (uint32 (len nodes'))
                                 ++ concat ((λ c, childRef_layout c (offset c)) <$> nodes'))
                             ++ be 4 (uint32 (int (innerNode_size nodes'))))
                            (loads st ++ ls),
                       (wrap64 (BaseOffset o + cw),
                        wrap64 (wrap64 (cw + int (innerNode_size nodes')) + 4), None))
             end)
  ∧ (∀ fuel n st o n' st' off tw,
       node_writeTo bufferWrite (S fuel) n st true o = Done (n', st', (off, tw, None)) →
       if passed_over o n
       then sink st' = sink st ∧ tw = 0
       else ∃ before tag (size : nat) payload,
              sink st' = sink st ++ before
                         ++ [tag] ++ be 4 (uint32 (int size)) ++ payload
                         ++ be 4 (uint32 (int size))
              ∧ match resolved n' with
                | leafNode _ _ _ values =>
                    tag = RootLeafNodeType ∧ size = leafNode_size values ∧
                    payload = be 4 (uint32 (len values))
                              ++ concat (leafEntry_layout <$> values)
                | innerNode _ _ _ nodes =>
                    tag = RootInnerNodeType ∧ size = innerNode_size nodes ∧
                    payload = be 4 (uint32 (len nodes))
                              ++ concat ((λ c, childRef_layout c (offset c)) <$> nodes)
                | nodeRef _ _ _ _ _ _ _ => False
                end)
  ∧ (∀ v, length (be 4 v) = 4%nat).
Proof.
  split_and!.
  - intros fuel off cts mut values st o Hskip.
    rewrite leafNode_written_as_root by done. by rewrite leafNode_root_record.
  - intros fuel off cts mut nodes st o Hskip.
    destruct (innerNode_written_as_root fuel off cts mut nodes st o Hskip)
      as (cs' & out & ls & offs & cw & e & Hch & E).
    exists cs', out, ls, offs, cw, e. split; [done|].
    rewrite E. by rewrite innerNode_root_record.
  - intros fuel n st o n' st' off tw H.
    pose proof (node_written_as_root fuel n _ _ _ _ _ _ H) as R.
    destruct (passed_over o n); [done|].
    destruct R as (before & Hsink & Href). exists before.
    destruct (resolved n') as [? ? ? nodes|? ? ? values|]; [| |done].
    + rewrite innerNode_root_record in Hsink. by eexists _, _, _.
    + rewrite leafNode_root_record in Hsink. by eexists _, _, _.
  - intros v. apply length_be.
Qed.

Lemma root_record_size_mirror_witness :
  ∃ before tag (size : nat) payload,
    [3; 0; 0; 0; 36; 0; 0; 0; 1; 0; 0; 0; 1; 107; 0; 0; 0; 2; 1; 2;
     0; 0; 0; 0; 0; 0; 0; 7; 0; 0; 0; 0; 0; 0; 0; 0; 0; 0; 0; 36]
    = [] ++ before ++ [tag] ++ be 4 (uint32 (int size)) ++ payload
      ++ be 4 (uint32 (int size))
    ∧ tag = RootLeafNodeType ∧ size = leafNode_size [mkLeafValue [107] [1; 2] 7 0] ∧
      payload = be 4 (uint32 (len [mkLeafValue [107] [1; 2] 7 0]))
                ++ concat (leafEntry_layout <$> [mkLeafValue [107] [1; 2] 7 0]).
Proof.
  apply (proj1 (proj2 (proj2 root_record_size_mirror)) 0%nat
           (nodeRef 0 [107] 7 36 true None (inr leaf_new)) (mkIo [] [])
           {| OnlyMutated := false; BaseOffset := 0; CommitLog := false |}
           (nodeRef 0 [107] 7 36 true None (inr leaf_new))
           (mkIo [3; 0; 0; 0; 36; 0; 0; 0; 1; 0; 0; 0; 1; 107; 0; 0; 0; 2; 1; 2;
                  0; 0; 0; 0; 0; 0; 0; 7; 0; 0; 0; 0; 0; 0; 0; 0; 0; 0; 0; 36] [0])
           0 40).
  vm_compute. reflexivity.
Defined.

(** ** Leaf records *)

Lemma be_value_be n : ∀ v, be_value (be n v) = v mod 256 ^ Z.of_nat n.
Proof.
  unfold be_value. induction n as [|n IH]; intros v.
  - simpl. by rewrite Z.mod_1_r.
  - cbn [be]. rewrite foldl_app. cbn [foldl]. rewrite IH.
    rewrite Nat2Z.inj_succ, Z.pow_succ_r by lia.
    rewrite (Z.rem_mul_r v 256 (256 ^ Z.of_nat n)) by lia. lia.
Qed.

Lemma leafNode_layout_claimed asRoot values :
  leafNode_layout asRoot values
  = leafNode_claimed asRoot values
    ++ (if asRoot then be 4 (uint32 (int (leafNode_size values))) else []).
Proof.
  unfold leafNode_layout, leafNode_claimed. by rewrite <- !(assoc_L (++)).
Qed.

(** C8 fails as stated: a leaf written as root into an empty buffer leaves
    the tag, the size, the count and the entries, and then four more bytes,
    the size once more. *)
Lemma leafNode_root_emits_more_than_claimed :
  let values := [mkLeafValue [107] [1; 2] 7 0] in
  node_writeTo bufferWrite 1 (leafNode 0 7 true values) (mkIo [] []) true
    {| OnlyMutated := false; BaseOffset := 0; CommitLog := false |}
  = Done (leafNode 0 7 true values,
          mkIo (leafNode_claimed true values ++ [0; 0; 0; 36]) [],
          (0, 40, None))
  ∧ leafNode_claimed true values ++ [0; 0; 0; 36] ≠ leafNode_claimed true values.
Proof.
  split; [by vm_compute|]. vm_compute. discriminate.
Qed.

(** C8, amended. Unless it skips the node ([OnlyMutated] on and [off > 0]),
    [leafNode.writeTo] hands the sink exactly: the one-byte tag
    ([LeafNodeType], or [RootLeafNodeType] when root), the four-byte size, the
    four-byte entry count, then for each entry in order
    keyLen(4B) | keyBytes | valueLen(4B) | valueBytes | timestamp(8B) |
    prevTimestamp(8B), and, when root, the four-byte size once more. Every
    integer field is big-endian: read most significant byte first it gives the
    value, reduced to the width of the field. *)
Theorem leafNode_writeTo_layout :
  (∀ fuel off cts mut values st asRoot o,
     OnlyMutated o && (0 <? off) = false →
     ∃ l' tw,
       node_writeTo bufferWrite (S fuel) (leafNode off cts mut values) st asRoot o
       = Done (l',
               mkIo (sink st
                     ++ [if asRoot then RootLeafNodeType else LeafNodeType]
                     ++ be 4 (uint32 (int (leafNode_size values)))
                     ++ be 4 (uint32 (len values))
                     ++ concat ((λ v,
                          be 4 (uint32 (len (key v))) ++ key v ++
                          be 4 (uint32 (len (value v))) ++ value v ++
                          be 8 (uint64 (ts v)) ++ be 8 (uint64 (prevTs v)))
                          <$> values)
                     ++ (if asRoot then be 4 (uint32 (int (leafNode_size values)))
                         else []))
                    (loads st),
               (BaseOffset o, tw, None)))
  ∧ (∀ n v, length (be n v) = n ∧ be_value (be n v) = v mod 256 ^ Z.of_nat n).
Proof.
  split.
  - intros fuel off cts mut values st asRoot o Hskip. simpl.
    unfold leafNode_writeTo. rewrite Hskip.
    rewrite leafNode_record_layout, writeTo_buffer. by eexists _, _.
  - intros n v. split; [apply length_be|apply be_value_be].
Qed.

Lemma leafNode_writeTo_layout_witness :
  ∃ l' tw,
    node_writeTo bufferWrite 1 (leafNode 0 7 true [mkLeafValue [107] [1; 2] 7 0])
      (mkIo [] []) true
      {| OnlyMutated := true; BaseOffset := 8; CommitLog := true |}
    = Done (l',
            mkIo ([3] ++ [0; 0; 0; 36] ++ [0; 0; 0; 1]
                  ++ ([0; 0; 0; 1] ++ [107] ++ [0; 0; 0; 2] ++ [1; 2]
                      ++ [0; 0; 0; 0; 0; 0; 0; 7] ++ [0; 0; 0; 0; 0; 0; 0; 0])
                  ++ [0; 0; 0; 36]) [],
            (8, tw, None)).
Proof.
  apply (proj1 leafNode_writeTo_layout 0%nat 0 7 true
           [mkLeafValue [107] [1; 2] 7 0] (mkIo [] []) true
           {| OnlyMutated := true; BaseOffset := 8; CommitLog := true |}).
  reflexivity.
Defined.

(** ** Offsets under [CommitLog] *)

(** C9. With [CommitLog] on, a leaf that is written (not skipped, no error)
    has its offset set to [BaseOffset], and an inner node that is written has
    its offset set to [BaseOffset + cw], [cw] being the sum of the counts its
    children returned; into a buffer, the leaf's record is the first thing the
    call writes, and the inner node's record follows the bytes of its
    children, whose number is what is added to [BaseOffset]. With [CommitLog]
    off the node graph after the call is the graph before it, whatever the
    call returns; and in both modes the graph after the call differs from the
    graph before it in offsets at most. *)
Theorem CommitLog_sets_offsets :
  (∀ W (Write : W → bytes → W * Z * option error) fuel
     off cts mut values st asRoot o l' st' off' tw,
     CommitLog o = true →
     OnlyMutated o && (0 <? off) = false →
     node_writeTo Write fuel (leafNode off cts mut values) st asRoot o
     = Done (l', st', (off', tw, None)) →
     l' = leafNode (BaseOffset o) cts mut values ∧ off' = BaseOffset o)
  ∧ (∀ W (Write : W → bytes → W * Z * option error) fuel
       off cts mut nodes st asRoot o n' st' off' tw,
       CommitLog o = true →
       OnlyMutated o && (0 <? off) = false →
       node_writeTo Write fuel (innerNode off cts mut nodes) st asRoot o
       = Done (n', st', (off', tw, None)) →
       ∃ nodes' st1 offsets cw,
         writeChildren (node_writeTo Write fuel) o nodes st 0
         = Done (nodes', st1, (offsets, cw, None)) ∧
         n' = innerNode (wrap64 (BaseOffset o + cw)) cts mut nodes' ∧
         off' = wrap64 (BaseOffset o + cw))
  ∧ (∀ fuel off cts mut values st asRoot o l' st' off' tw,
       CommitLog o = true →
       OnlyMutated o && (0 <? off) = false →
       node_writeTo bufferWrite (S fuel) (leafNode off cts mut values) st asRoot o
       = Done (l', st', (off', tw, None)) →
       sink st' = sink st ++ leafNode_layout asRoot values ∧
       offset l' = BaseOffset o)
  ∧ (∀ fuel off cts mut nodes st asRoot o n' st' off' tw,
       CommitLog o = true →
       OnlyMutated o && (0 <? off) = false →
       node_writeTo bufferWrite (S fuel) (innerNode off cts mut nodes) st asRoot o
       = Done (n', st', (off', tw, None)) →
       ∃ before nodes',
         sink st' = sink st ++ before ++ innerNode_layout asRoot nodes' offset ∧
         offset n' = wrap64 (BaseOffset o + int (length before)))
  ∧ (∀ W (Write : W → bytes → W * Z * option error) fuel n st asRoot o n' st' r,
       CommitLog o = false →
       node_writeTo Write fuel n st asRoot o = Done (n', st', r) →
       n' = n)
  ∧ (∀ W (Write : W → bytes → W * Z * option error) fuel n st asRoot o n' st' r,
       node_writeTo Write fuel n st asRoot o = Done (n', st', r) →
       erase_offsets n' = erase_offsets n).
Proof.
  split_and!.
  - intros W Write fuel off cts mut values st asRoot o l' st' off' tw Hcl Hskip H.
    simpl in H. unfold leafNode_writeTo in H. rewrite Hskip, Hcl in H.
    run_cases H. by simplify_eq.
  - intros W Write fuel off cts mut nodes st asRoot o n' st' off' tw Hcl Hskip H.
    simpl in H. rewrite Hskip in H.
    destruct (writeChildren _ _ _ _ _) as [[[nodes' st1] [[offsets cw] [e|]]]| |];
      try discriminate H.
    unfold innerNode_emit in H. rewrite Hcl in H.
    run_cases H. simplify_eq. eauto 10.
  - intros fuel off cts mut values st asRoot o l' st' off' tw Hcl Hskip H.
    simpl in H. unfold leafNode_writeTo in H. rewrite Hskip, Hcl in H.
    rewrite leafNode_record_layout, writeTo_buffer in H. by simplify_eq.
  - intros fuel off cts mut nodes st asRoot o n' st' off' tw Hcl Hskip H.
    simpl in H. rewrite Hskip in H.
    destruct (writeChildren _ _ _ _ _) as [[[nodes' st1] [[offsets cw] [e|]]]| |] eqn:Hch;
      try discriminate H.
    apply (writeChildren_counts_bytes fuel nodes
             (proj2 (Forall_forall _ _) (λ c _, node_counts_bytes fuel c)))
      in Hch as (before & Sc & Hcw).
    unfold innerNode_emit in H. rewrite Hcl in H.
    rewrite innerNode_record_layout, writeTo_buffer in H. simplify_eq.
    exists before, nodes'. cbn [sink offset].
    rewrite Sc, (assoc_L (++)). split; [done|]. clear -Hcw. wrap_lia.
  - intros W Write fuel n st asRoot o n' st' r. apply node_writeTo_no_commit.
  - intros W Write fuel n st asRoot o n' st' r. apply node_writeTo_erase.
Qed.

Lemma CommitLog_sets_offsets_witness :
  (leafNode 8 7 true [mkLeafValue [107] [1; 2] 7 0]
   = leafNode 8 7 true [mkLeafValue [107] [1; 2] 7 0] ∧ 8 = 8)
  ∧ (∃ nodes' st1 offsets cw,
       writeChildren (node_writeTo bufferWrite 1)
         {| OnlyMutated := true; BaseOffset := 8; CommitLog := true |}
         [leaf_old; leaf_new] (mkIo [] []) 0
       = Done (nodes', st1, (offsets, cw, None)) ∧
       innerNode 44 7 true [leaf_old; leafNode 8 7 true [mkLeafValue [107] [1; 2] 7 0]]
       = innerNode (wrap64 (8 + cw)) 7 true nodes' ∧
       44 = wrap64 (8 + cw))
  ∧ (sink (mkIo (leafNode_layout false [mkLeafValue [107] [1; 2] 7 0]) [])
     = sink (@mkIo bytes [] []) ++ leafNode_layout false [mkLeafValue [107] [1; 2] 7 0] ∧
     offset (leafNode 8 7 true [mkLeafValue [107] [1; 2] 7 0]) = 8)
  ∧ (∃ before nodes',
       sink (mkIo (leafNode_layout false [mkLeafValue [107] [1; 2] 7 0]
                   ++ innerNode_layout true
                        [leaf_old; leafNode 8 7 true [mkLeafValue [107] [1; 2] 7 0]]
                        offset) [])
       = sink (@mkIo bytes [] []) ++ before ++ innerNode_layout true nodes' offset ∧
       offset (innerNode 44 7 true
                 [leaf_old; leafNode 8 7 true [mkLeafValue [107] [1; 2] 7 0]])
       = wrap64 (8 + int (length before)))
  ∧ inner_new = inner_new
  ∧ erase_offsets
      (innerNode 44 7 true [leaf_old; leafNode 8 7 true [mkLeafValue [107] [1; 2] 7 0]])
    = erase_offsets inner_new.
Proof.
  destruct CommitLog_sets_offsets
    as (Hleaf & Hinner & Hleaf_at & Hinner_at & Hoff & Hframe).
  split; [|split; [|split; [|split; [|split]]]].
  - eapply (Hleaf bytes bufferWrite 1%nat 0 7 true [mkLeafValue [107] [1; 2] 7 0]
              (mkIo [] []) false
              {| OnlyMutated := true; BaseOffset := 8; CommitLog := true |});
      [reflexivity|reflexivity|vm_compute; reflexivity].
  - eapply (Hinner bytes bufferWrite 1%nat 0 7 true [leaf_old; leaf_new]
              (mkIo [] []) true
              {| OnlyMutated := true; BaseOffset := 8; CommitLog := true |});
      [reflexivity|reflexivity|vm_compute; reflexivity].
  - eapply (Hleaf_at 0%nat 0 7 true [mkLeafValue [107] [1; 2] 7 0]
              (mkIo [] []) false
              {| OnlyMutated := true; BaseOffset := 8; CommitLog := true |});
      [reflexivity|reflexivity|vm_compute; reflexivity].
  - eapply (Hinner_at 0%nat 0 7 true [leaf_old; leaf_new] (mkIo [] []) true
              {| OnlyMutated := true; BaseOffset := 8; CommitLog := true |});
      [reflexivity|reflexivity|vm_compute; reflexivity].
  - eapply (Hoff bytes bufferWrite 1%nat inner_new (mkIo [] []) true
              {| OnlyMutated := true; BaseOffset := 8; CommitLog := false |});
      [reflexivity|vm_compute; reflexivity].
  - eapply (Hframe bytes bufferWrite 1%nat inner_new (mkIo [] []) true
              {| OnlyMutated := true; BaseOffset := 8; CommitLog := true |}).
    vm_compute. reflexivity.
Defined.

(** ** The test for "already persisted" *)



(** ** Closed snapshots *)

(** C1, as the code has it. [Get], [Ts] and [Reader] of a closed snapshot
    return [ErrAlreadyClosed] and nothing else. [WriteTo] does not look at
    [closed]: on a closed snapshot it does what it does on the open one, and
    the closed snapshot over one unwritten leaf hands the sink the 40 bytes of
    the root record and returns no error. *)
Theorem WriteTo_ignores_closed :
  (∀ Path (get : node → bytes → bytes * Z * option error)
     (findLeafNode : node → bytes → bool → Path * node * Z * option error)
     id rt rds maxID k spec,
     let s := mkSnapshot id rt rds maxID true in
     Snapshot_Get get s k = ([], 0, Some ErrAlreadyClosed)
     ∧ Snapshot_Ts s = (0, Some ErrAlreadyClosed)
     ∧ Snapshot_Reader findLeafNode s spec = (s, (None, Some ErrAlreadyClosed)))
  ∧ (∀ Path W (Write : W → bytes → W * Z * option error) fuel
       id rt (rds : gmap Z (@Reader Path)) maxID st writeOpts,
       Snapshot_WriteTo Write fuel (mkSnapshot id rt rds maxID true) st writeOpts
       = match Snapshot_WriteTo Write fuel (mkSnapshot id rt rds maxID false)
                 st writeOpts with
         | Done (s', st', r) =>
             Done (mkSnapshot (snap_id s') (root s') (readers s') (maxReaderID s') true,
                   st', r)
         | Panic => Panic
         | Spin => Spin
         end)
  ∧ (let s : @Snapshot unit := mkSnapshot 1 leaf_new ∅ 0 true in
     Snapshot_WriteTo bufferWrite 1 s (mkIo [] [])
       {| OnlyMutated := false; BaseOffset := 0; CommitLog := false |}
     = Done (s, mkIo (leafNode_layout true [mkLeafValue [107] [1; 2] 7 0]) [],
             (40, None))).
Proof.
  split_and!; [done..| |by vm_compute].
  intros Path W Write fuel id rt rds maxID st writeOpts.
  unfold Snapshot_WriteTo. simpl.
  by destruct (node_writeTo _ _ _ _ _ _) as [[[? ?] [[? ?] ?]]| |].
Qed.

(** ** Closing a snapshot *)

Section Close.
Context {T Path : Type}.
Variable snapshotClosed : T → @Snapshot Path → T * option error.

Local Abbreviation Close := (Snapshot_Close snapshotClosed).

Lemma closeReaders_open rs : ∀ s : @Snapshot Path,
  closed s = false →
  closed (closeReaders s rs) = false ∧
  ∀ k, readers (closeReaders s rs) !! k
       = if decide (k ∈ rd_id <$> rs) then None else readers s !! k.
Proof.
  induction rs as [|r rs IH]; intros s Hopen.
  - split; [done|]. intros k. rewrite decide_False; [done|]. apply not_elem_of_nil.
  - unfold closeReaders. cbn [foldl].
    assert ((Snapshot_closedReader s r).1
            = mkSnapshot (snap_id s) (root s) (delete (rd_id r) (readers s))
                (maxReaderID s) false) as ->.
    { unfold Snapshot_closedReader. by rewrite Hopen. }
    destruct (IH (mkSnapshot (snap_id s) (root s) (delete (rd_id r) (readers s))
                    (maxReaderID s) false) eq_refl) as [Hop Hlk].
    split; [exact Hop|]. intros k.
    unfold closeReaders in Hlk. rewrite Hlk. cbn [readers].
    rewrite fmap_cons.
    destruct (decide (k ∈ rd_id <$> rs)) as [Hin|Hnin].
    + rewrite decide_True; [done|]. rewrite elem_of_cons. tauto.
    + destruct (decide (k = rd_id r)) as [->|Hne].
      * rewrite lookup_delete_eq. rewrite decide_True; [done|].
        rewrite elem_of_cons. tauto.
      * rewrite lookup_delete_ne by done.
        rewrite decide_False; [done|]. rewrite elem_of_cons. tauto.
Qed.

(** C4. [Close] on a closed snapshot fails with [ErrAlreadyClosed]; on an
    open snapshot with a reader in the registry it fails with
    [ErrReadersNotClosed]; in both cases the tree is not told and the
    snapshot is as before. Otherwise the tree's [snapshotClosed] is called
    once: when it succeeds the snapshot is marked closed and [Close] returns
    no error; when it fails its error is returned and the snapshot is as
    before, still open. Once every reader of the registry has been closed the
    registry is empty and [Close] is decided by the tree alone: it returns
    what [snapshotClosed] returns, and succeeds when that succeeds. *)
Theorem Snapshot_Close_spec :
  (∀ s t, closed s = true → Close s t = (s, t, Some ErrAlreadyClosed))
  ∧ (∀ s t, closed s = false → readers s ≠ ∅ →
       Close s t = (s, t, Some ErrReadersNotClosed))
  ∧ (∀ s t t',
       closed s = false → readers s = ∅ →
       snapshotClosed (tree t) s = (t', None) →
       Close s t
       = (mkSnapshot (snap_id s) (root s) (readers s) (maxReaderID s) true,
          mkTBtree t' (released t ++ [snap_id s]), None))
  ∧ (∀ s t t' e,
       closed s = false → readers s = ∅ →
       snapshotClosed (tree t) s = (t', Some e) →
       Close s t = (s, mkTBtree t' (released t ++ [snap_id s]), Some e))
  ∧ (∀ s t t' e rs,
       closed s = false →
       (∀ k, is_Some (readers s !! k) → k ∈ rd_id <$> rs) →
       snapshotClosed (tree t) (closeReaders s rs) = (t', e) →
       readers (closeReaders s rs) = ∅ ∧
       ∃ s', Close (closeReaders s rs) t
             = (s', mkTBtree t' (released t ++ [snap_id (closeReaders s rs)]), e)
             ∧ closed s' = (match e with Some _ => false | None => true end)).
Proof.
  assert (∀ s : @Snapshot Path, readers s = ∅ → (0 <? size (readers s))%nat = false)
    as Hempty.
  { intros s ->. by rewrite map_size_empty. }
  split_and!.
  - intros s t Hc. unfold Snapshot_Close. by rewrite Hc.
  - intros s t Hc Hne. unfold Snapshot_Close. rewrite Hc.
    destruct (Nat.ltb_spec 0 (size (readers s))) as [_|Hz]; [done|].
    destruct Hne. apply map_size_empty_iff. lia.
  - intros s t t' Hc He Hn. unfold Snapshot_Close. by rewrite Hc, (Hempty s He), Hn.
  - intros s t t' e Hc He Hn. unfold Snapshot_Close. by rewrite Hc, (Hempty s He), Hn.
  - intros s t t' e rs Hc Hall Hn.
    destruct (closeReaders_open rs s Hc) as [Hopen Hlk].
    assert (readers (closeReaders s rs) = ∅) as He.
    { apply map_eq. intros k. rewrite Hlk, lookup_empty.
      destruct (decide (k ∈ rd_id <$> rs)) as [|Hnin]; [done|].
      destruct (readers s !! k) eqn:E; [|done].
      destruct Hnin. apply Hall. by rewrite E. }
    split; [exact He|].
    unfold Snapshot_Close. rewrite Hopen, (Hempty _ He), Hn.
    destruct e; eexists; (split; [done|]); [exact Hopen|done].
Qed.
End Close.

Lemma Snapshot_Close_spec_witness :
  Snapshot_Close tree_accepts (mkSnapshot 1 leaf_new ∅ 0 true) (mkTBtree () [])
  = (mkSnapshot 1 leaf_new ∅ 0 true, mkTBtree () [], Some ErrAlreadyClosed)
  ∧ Snapshot_Close tree_accepts snapshot1 (mkTBtree () [])
    = (snapshot1, mkTBtree () [], Some ErrReadersNotClosed)
  ∧ Snapshot_Close tree_accepts snapshot0 (mkTBtree () [])
    = (mkSnapshot 1 leaf_new ∅ 0 true, mkTBtree () [1], None)
  ∧ Snapshot_Close tree_refuses snapshot0 (mkTBtree () [])
    = (snapshot0, mkTBtree () [1], Some (ErrIO 1))
  ∧ (readers (closeReaders snapshot1 [reader0]) = ∅ ∧
     ∃ s', Snapshot_Close tree_accepts (closeReaders snapshot1 [reader0]) (mkTBtree () [])
           = (s', mkTBtree () ([] ++ [snap_id (closeReaders snapshot1 [reader0])]), None)
           ∧ closed s' = true)
  ∧ (readers (closeReaders snapshot1 [reader0]) = ∅ ∧
     ∃ s', Snapshot_Close tree_refuses (closeReaders snapshot1 [reader0]) (mkTBtree () [])
           = (s', mkTBtree () ([] ++ [snap_id (closeReaders snapshot1 [reader0])]),
              Some (ErrIO 1))
           ∧ closed s' = false).
Proof.
  split; [|split; [|split; [|split; [|split]]]].
  - by apply (proj1 (Snapshot_Close_spec tree_accepts)).
  - apply (proj1 (proj2 (Snapshot_Close_spec tree_accepts))); [done|].
    apply insert_non_empty.
  - by apply (proj1 (proj2 (proj2 (Snapshot_Close_spec tree_accepts)))
                snapshot0 (mkTBtree () []) ()).
  - by apply (proj1 (proj2 (proj2 (proj2 (Snapshot_Close_spec tree_refuses))))
                snapshot0 (mkTBtree () []) () (ErrIO 1)).
  - apply (proj2 (proj2 (proj2 (proj2 (Snapshot_Close_spec tree_accepts))))
             snapshot1 (mkTBtree () []) () None [reader0]); [done| |done].
    intros k [r Hr]. unfold snapshot1 in Hr. cbn [readers] in Hr.
    apply lookup_singleton_Some in Hr as [<- _]. cbn [fmap list_fmap rd_id reader0].
    rewrite elem_of_cons. by left.
  - apply (proj2 (proj2 (proj2 (proj2 (Snapshot_Close_spec tree_refuses))))
             snapshot1 (mkTBtree () []) () (Some (ErrIO 1)) [reader0]); [done| |done].
    intros k [r Hr]. unfold snapshot1 in Hr. cbn [readers] in Hr.
    apply lookup_singleton_Some in Hr as [<- _]. cbn [fmap list_fmap rd_id reader0].
    rewrite elem_of_cons. by left.
Defined.

(** ** Opening readers *)

Section Readers.
Context {T Path : Type}.
Variable snapshotClosed : T → @Snapshot Path → T * option error.
Variable findLeafNode : node → bytes → bool → Path * node * Z * option error.

Local Abbreviation NewReader := (Snapshot_Reader findLeafNode).

Lemma Reader_cases (s : @Snapshot Path) spec s' r e :
  NewReader s spec = (s', (r, e)) →
  (r = None ∧ s' = s) ∨
  (∃ rd, r = Some rd ∧ e = None ∧ rd_id rd = maxReaderID s ∧
         s' = mkSnapshot (snap_id s) (root s) (<[maxReaderID s := rd]> (readers s))
                (wrap64 (maxReaderID s + 1)) (closed s)).
Proof.
  unfold Snapshot_Reader. intros H.
  destruct (closed s); [left; by simplify_eq|].
  destruct spec as [spec|]; [|left; by simplify_eq].
  destruct (findLeafNode _ _ _) as [[[p l] o] err].
  destruct (decide (err = Some ErrKeyNotFound)); [left; by simplify_eq|].
  destruct err; [left; by simplify_eq|].
  right. simplify_eq. eauto.
Qed.

Lemma do_call_step s t c s1 t1 id :
  - 2 ^ 63 ≤ maxReaderID s < 2 ^ 63 - 1 →
  registry_below s →
  do_call snapshotClosed findLeafNode (s, t) c = (s1, t1, id) →
  registry_below s1 ∧
  ((id = None ∧ maxReaderID s1 = maxReaderID s) ∨
   (id = Some (maxReaderID s) ∧ maxReaderID s1 = maxReaderID s + 1)).
Proof.
  intros Hrange Hinv H. destruct c as [spec|r|]; simpl in H.
  - destruct (NewReader s spec) as [s' [r e]] eqn:E. simplify_eq.
    apply Reader_cases in E as [[-> ->]|(rd & -> & -> & Hid & ->)].
    + split; [done|]. by left.
    + split.
      * intros k. cbn [readers maxReaderID]. rewrite wrap64_small by lia.
        rewrite lookup_insert_is_Some. intros [->|[_ Hk]]; [lia|].
        specialize (Hinv k Hk). lia.
      * right. cbn [fmap option_fmap option_map maxReaderID].
        rewrite Hid, wrap64_small by lia. done.
  - simplify_eq. unfold Snapshot_closedReader.
    destruct (closed s); cbn [fst]; (split; [|by left]); [done|].
    intros k. cbn [readers maxReaderID]. intros Hk. apply Hinv.
    destruct Hk as [x Hx]. apply lookup_delete_Some in Hx as [_ Hx]. eauto.
  - destruct (Snapshot_Close snapshotClosed s t) as [[s' t'] e] eqn:E. simplify_eq.
    unfold Snapshot_Close in E.
    run_cases E; simplify_eq; (split; [done|by left]).
Qed.

Lemma do_calls_ids cs : ∀ s t s' t' ids,
  - 2 ^ 63 ≤ maxReaderID s →
  maxReaderID s + Z.of_nat (length cs) < 2 ^ 63 →
  registry_below s →
  do_calls snapshotClosed findLeafNode (s, t) cs = (s', t', ids) →
  registry_below s' ∧
  maxReaderID s ≤ maxReaderID s' ≤ maxReaderID s + Z.of_nat (length cs) ∧
  Forall (λ i, maxReaderID s ≤ i < maxReaderID s') ids ∧
  NoDup ids.
Proof.
  induction cs as [|c cs IH]; intros s t s' t' ids Hlo Hhi Hinv H; cbn [do_calls] in H.
  - simplify_eq. simpl. split_and!; [done|lia|lia|constructor|constructor].
  - rewrite length_cons, Nat2Z.inj_succ in Hhi |- *.
    destruct (do_call snapshotClosed findLeafNode (s, t) c) as [[s1 t1] id] eqn:E1.
    destruct (do_calls snapshotClosed findLeafNode (s1, t1) cs) as [[s2 t2] ids2] eqn:E2. simplify_eq.
    apply do_call_step in E1 as [Hinv1 Hid]; [|lia|done].
    assert (maxReaderID s ≤ maxReaderID s1 ≤ maxReaderID s + 1) as Hm
      by (destruct Hid as [[_ ->]|[_ ->]]; lia).
    apply IH in E2 as (Hinv2 & Hm2 & Hall & Hnd); [|lia|lia|done].
    split_and!; [done|lia|lia| |].
    + apply Forall_app. split.
      * destruct Hid as [[-> _]|[-> Hs]]; simpl; [constructor|].
        constructor; [lia|constructor].
      * eapply Forall_impl; [exact Hall|]. simpl. intros i ?. lia.
    + destruct Hid as [[-> _]|[-> Hs]]; simpl; [done|].
      constructor; [|done]. intros Hin.
      rewrite Forall_forall in Hall. specialize (Hall _ Hin). lia.
Qed.

(** C5. On an open snapshot, [Reader] with no spec fails with
    [ErrIllegalArgument]; when the descent for the initial key ends in
    [ErrKeyNotFound] it fails with [ErrNoMoreEntries]; when the descent
    succeeds it puts the new reader in the registry under the id
    [maxReaderID] and increases [maxReaderID] by one. Along every sequence of
    calls on a snapshot that does not exhaust the range of [int], the ids
    handed out are pairwise distinct, each is at least the [maxReaderID]
    before the sequence and below the one after it, and every id in the
    registry stays below [maxReaderID]: no id is used twice. *)
Theorem Snapshot_Reader_spec :
  (∀ s : @Snapshot Path, closed s = false →
     NewReader s None = (s, (None, Some ErrIllegalArgument)))
  ∧ (∀ (s : @Snapshot Path) spec p l o,
       closed s = false →
       findLeafNode (root s) (spec_initialKey spec) (spec_ascOrder spec)
       = (p, l, o, Some ErrKeyNotFound) →
       NewReader s (Some spec) = (s, (None, Some ErrNoMoreEntries)))
  ∧ (∀ (s : @Snapshot Path) spec p l o,
       closed s = false →
       findLeafNode (root s) (spec_initialKey spec) (spec_ascOrder spec)
       = (p, l, o, None) →
       - 2 ^ 63 ≤ maxReaderID s < 2 ^ 63 - 1 →
       ∃ r,
         NewReader s (Some spec)
         = (mkSnapshot (snap_id s) (root s) (<[maxReaderID s := r]> (readers s))
              (maxReaderID s + 1) false,
            (Some r, None)) ∧
         r = mkReader (snap_id s) (maxReaderID s) (spec_initialKey spec)
               (spec_isPrefix spec) (spec_ascOrder spec) p l o false ∧
         maxReaderID s < maxReaderID s + 1)
  ∧ (∀ cs (s : @Snapshot Path) t s' t' ids,
       - 2 ^ 63 ≤ maxReaderID s →
       maxReaderID s + Z.of_nat (length cs) < 2 ^ 63 →
       registry_below s →
       do_calls snapshotClosed findLeafNode (s, t) cs = (s', t', ids) →
       registry_below s' ∧
       maxReaderID s ≤ maxReaderID s' ≤ maxReaderID s + Z.of_nat (length cs) ∧
       Forall (λ i, maxReaderID s ≤ i < maxReaderID s') ids ∧
       NoDup ids).
Proof.
  split_and!.
  - intros s Hc. unfold Snapshot_Reader. by rewrite Hc.
  - intros s spec p l o Hc Hf. unfold Snapshot_Reader. rewrite Hc, Hf.
    by rewrite decide_True.
  - intros s spec p l o Hc Hf Hrange. unfold Snapshot_Reader. rewrite Hc, Hf.
    rewrite decide_False by done. rewrite wrap64_small by lia.
    eexists. split_and!; [done|done|lia].
  - apply do_calls_ids.
Qed.
End Readers.

Lemma Snapshot_Reader_spec_witness :
  let spec := mkReaderSpec [107] false true in
  let calls := [CallReader (Some spec); CallReader None; CallReader (Some spec);
                CallClosedReader reader0; CallClose] in
  let r := do_calls tree_accepts find_root (snapshot0, mkTBtree () []) calls in
  Snapshot_Reader find_root snapshot0 None
  = (snapshot0, (None, Some ErrIllegalArgument))
  ∧ Snapshot_Reader find_nothing snapshot0 (Some spec)
    = (snapshot0, (None, Some ErrNoMoreEntries))
  ∧ (∃ rd,
       Snapshot_Reader find_root snapshot0 (Some spec)
       = (mkSnapshot 1 leaf_new (<[0 := rd]> ∅) (0 + 1) false, (Some rd, None)) ∧
       rd = mkReader 1 0 [107] false true () leaf_new 0 false ∧
       0 < 0 + 1)
  ∧ (registry_below r.1.1 ∧
     0 ≤ maxReaderID r.1.1 ≤ 0 + Z.of_nat (length calls) ∧
     Forall (λ i, 0 ≤ i < maxReaderID r.1.1) r.2 ∧
     NoDup r.2).
Proof.
  intros spec calls r.
  split; [|split; [|split]].
  - by apply (proj1 (Snapshot_Reader_spec tree_accepts find_root)).
  - apply (proj1 (proj2 (Snapshot_Reader_spec tree_accepts find_nothing))
             snapshot0 spec () leaf_new 0); reflexivity.
  - apply (proj1 (proj2 (proj2 (Snapshot_Reader_spec tree_accepts find_root)))
             snapshot0 spec () leaf_new 0); [reflexivity|reflexivity|simpl; lia].
  - apply (proj2 (proj2 (proj2 (Snapshot_Reader_spec tree_accepts find_root)))
             calls snapshot0 (mkTBtree () []) r.1.1 r.1.2 r.2).
    + simpl. lia.
    + simpl. lia.
    + intros k [x Hx]. simpl in Hx. by rewrite lookup_empty in Hx.
    + subst r. by destruct (do_calls _ _ _ _) as [[? ?] ?].
Defined.

(** * Further properties of the code *)

(** ** The registry of readers *)

Section Registry.
Context {T Path : Type}.
Variable snapshotClosed : T → @Snapshot Path → T * option error.
Variable findLeafNode : node → bytes → bool → Path * node * Z * option error.

(** X1. Opening a reader and closing it again gives the registry back: on a
    snapshot whose registered ids are all below [maxReaderID], a successful
    [Reader] followed by [closedReader] of the reader it returned leaves the
    snapshot as it was, but for [maxReaderID], which stays increased. *)
Theorem Reader_then_closedReader (s s1 : @Snapshot Path) spec r :
  registry_below s →
  Snapshot_Reader findLeafNode s spec = (s1, (Some r, None)) →
  Snapshot_closedReader s1 r
  = (mkSnapshot (snap_id s) (root s) (readers s) (wrap64 (maxReaderID s + 1))
       (closed s), None)
  ∧ closed s = false.
Proof.
  intros Hinv H.
  assert (closed s = false) as Hopen.
  { unfold Snapshot_Reader in H. by destruct (closed s). }
  apply Reader_cases in H as [[? _]|(rd & ? & _ & Hid & ->)]; [done|].
  simplify_eq. split; [|done].
  unfold Snapshot_closedReader. cbn [closed readers snap_id root maxReaderID].
  rewrite Hopen, Hid. do 2 f_equal.
  rewrite delete_insert_eq. apply delete_id.
  destruct (readers s !! maxReaderID s) eqn:E; [|done].
  specialize (Hinv (maxReaderID s)). rewrite E in Hinv.
  specialize (Hinv (mk_is_Some _ _ eq_refl)). lia.
Qed.

(** X2. While a reader is registered the snapshot cannot be closed: right
    after a successful [Reader], [Close] fails with [ErrReadersNotClosed],
    the snapshot stays open and the tree is not told. *)
Theorem Reader_blocks_Close (s s1 : @Snapshot Path) spec r t :
  Snapshot_Reader findLeafNode s spec = (s1, (Some r, None)) →
  Snapshot_Close snapshotClosed s1 t = (s1, t, Some ErrReadersNotClosed)
  ∧ closed s1 = false.
Proof.
  intros H.
  assert (closed s = false) as Hopen.
  { unfold Snapshot_Reader in H. by destruct (closed s). }
  apply Reader_cases in H as [[? _]|(rd & ? & _ & Hid & ->)]; [done|].
  simplify_eq. split; [|done].
  unfold Snapshot_Close. cbn [closed readers]. rewrite Hopen.
  destruct (Nat.ltb_spec 0 (size (<[maxReaderID s := rd]> (readers s)))) as [_|Hz]; [done|].
  assert (<[maxReaderID s := rd]> (readers s) = ∅) as He
    by (apply map_size_empty_iff; lia).
  by apply insert_non_empty in He.
Qed.

(** X3. A closed snapshot is inert: whatever sequence of [Reader],
    [closedReader] and [Close] calls follows, the snapshot and the tree are
    as before, [snapshotClosed] is not called again and no reader id is
    handed out. *)
Theorem closed_snapshot_is_inert cs : ∀ (s s' : @Snapshot Path) t t' ids,
  closed s = true →
  do_calls snapshotClosed findLeafNode (s, t) cs = (s', t', ids) →
  s' = s ∧ t' = t ∧ ids = [].
Proof.
  induction cs as [|c cs IH]; intros s s' t t' ids Hc H; cbn [do_calls] in H.
  - by simplify_eq.
  - assert (do_call snapshotClosed findLeafNode (s, t) c = (s, t, None)) as E.
    { destruct c as [spec|r|]; simpl.
      - unfold Snapshot_Reader. by rewrite Hc.
      - unfold Snapshot_closedReader. by rewrite Hc.
      - unfold Snapshot_Close. by rewrite Hc. }
    rewrite E in H.
    destruct (do_calls _ _ (s, t) cs) as [[s2 t2] ids2] eqn:E2.
    apply IH in E2 as (-> & -> & ->); [|done]. by simplify_eq.
Qed.

(** X4. A snapshot is only ever closed with an empty registry: if every
    closed snapshot we start from has no registered reader, then after any
    sequence of [Reader], [closedReader] and [Close] calls a closed snapshot
    has none either. *)
Theorem closed_means_no_readers cs : ∀ (s s' : @Snapshot Path) t t' ids,
  closed_empty s →
  do_calls snapshotClosed findLeafNode (s, t) cs = (s', t', ids) →
  closed_empty s'.
Proof.
  induction cs as [|c cs IH]; intros s s' t t' ids Hinv H; cbn [do_calls] in H.
  - by simplify_eq.
  - destruct (do_call _ _ (s, t) c) as [[s1 t1] id] eqn:E1.
    destruct (do_calls _ _ (s1, t1) cs) as [[s2 t2] ids2] eqn:E2. simplify_eq.
    apply IH in E2; [done|]. clear IH E2.
    destruct c as [spec|r|]; simpl in E1.
    + destruct (Snapshot_Reader findLeafNode s spec) as [s0 [r e]] eqn:E.
      simplify_eq.
      assert (closed s = true → s1 = s) as Hsame.
      { intros Hc. unfold Snapshot_Reader in E. rewrite Hc in E. by simplify_eq. }
      apply Reader_cases in E as [[_ ->]|(rd & _ & _ & _ & ->)]; [done|].
      intros Hc. cbn [closed] in Hc. specialize (Hsame Hc). rewrite Hsame. auto.
    + simplify_eq. unfold Snapshot_closedReader.
      destruct (closed s) eqn:Hc; cbn [fst]; [done|].
      intros Hc'. cbn [closed] in Hc'. congruence.
    + destruct (Snapshot_Close snapshotClosed s t) as [[s0 t0] e] eqn:E. simplify_eq.
      unfold Snapshot_Close in E.
      destruct (closed s) eqn:Hc; [by simplify_eq|].
      destruct (Nat.ltb_spec 0 (size (readers s))) as [|Hz].
      { simplify_eq. intros Hc'. congruence. }
      destruct (snapshotClosed (tree t) s) as [t0' [err|]]; simplify_eq.
      * intros Hc'. congruence.
      * intros _. cbn [readers]. apply map_size_empty_iff. lia.
Qed.

End Registry.

Lemma Reader_then_closedReader_witness :
  Snapshot_closedReader
    (mkSnapshot 1 leaf_new (<[0 := reader0]> ∅) (wrap64 (0 + 1)) false)
    reader0
  = (mkSnapshot 1 leaf_new ∅ (wrap64 (0 + 1)) false, None)
  ∧ closed snapshot0 = false.
Proof.
  apply (Reader_then_closedReader find_root snapshot0 _
           (Some (mkReaderSpec [107] false true)) reader0).
  - intros k [x Hx]. simpl in Hx. by rewrite lookup_empty in Hx.
  - reflexivity.
Defined.

Lemma Reader_blocks_Close_witness :
  Snapshot_Close tree_accepts
    (mkSnapshot 1 leaf_new (<[0 := reader0]> ∅) (wrap64 (0 + 1)) false)
    (mkTBtree () [])
  = (mkSnapshot 1 leaf_new (<[0 := reader0]> ∅) (wrap64 (0 + 1)) false,
     mkTBtree () [], Some ErrReadersNotClosed)
  ∧ closed (mkSnapshot 1 leaf_new (<[0 := reader0]> ∅) (wrap64 (0 + 1)) false)
    = false.
Proof.
  apply (Reader_blocks_Close tree_accepts find_root snapshot0 _
           (Some (mkReaderSpec [107] false true)) reader0).
  reflexivity.
Defined.

Lemma closed_snapshot_is_inert_witness :
  let s := mkSnapshot 1 leaf_new ∅ 3 true in
  let r := do_calls tree_accepts find_root (s, mkTBtree () [1])
             [CallReader (Some (mkReaderSpec [107] false true));
              CallClosedReader reader0; CallClose] in
  r.1.1 = s ∧ r.1.2 = mkTBtree () [1] ∧ r.2 = [].
Proof.
  intros s r.
  apply (closed_snapshot_is_inert tree_accepts find_root
           [CallReader (Some (mkReaderSpec [107] false true));
            CallClosedReader reader0; CallClose] s r.1.1 (mkTBtree () [1]) r.1.2 r.2).
  - reflexivity.
  - subst r. by destruct (do_calls _ _ _ _) as [[? ?] ?].
Defined.

Lemma closed_means_no_readers_witness :
  let r := do_calls tree_accepts find_root (snapshot1, mkTBtree () [])
             [CallClose; CallClosedReader reader0; CallClose] in
  closed_empty r.1.1.
Proof.
  intros r.
  apply (closed_means_no_readers tree_accepts find_root
           [CallClose; CallClosedReader reader0; CallClose]
           snapshot1 r.1.1 (mkTBtree () []) r.1.2 r.2).
  - intros Hc. discriminate Hc.
  - subst r. by destruct (do_calls _ _ _ _) as [[? ?] ?].
Defined.

(** ** Writers that honour the contract of [io.Writer] *)

Section Contract.
Context {W : Type}.
Variable Write : W → bytes → W * Z * option error.
Hypothesis contract : honours_contract Write.
Variable fuel : nat.

(** X5. Against a writer that honours the contract of [io.Writer], the
    helper calls [Write] once, with the whole buffer, and returns what that
    call returned: the writer's error, or nil. *)
Theorem writeTo_one_pass buf w :
  writeTo Write (S fuel) buf w
  = Some (let '(w', _, err) := Write w buf in (w', err)).
Proof.
  unfold writeTo. cbn [writeTo_loop].
  destruct (Write w buf) as [[w' n] [e|]] eqn:E; [done|].
  apply contract in E as ->. by rewrite len_idemp, Z.eqb_refl.
Qed.

Lemma writeChildren_returns cs :
  Forall (λ c, ∀ st asRoot o, ∃ res, node_writeTo Write (S fuel) c st asRoot o = Done res) cs →
  ∀ o st cw, ∃ res, writeChildren (node_writeTo Write (S fuel)) o cs st cw = Done res.
Proof.
  induction 1 as [|c cs Hc _ IH]; intros o st cw; simpl; [eauto|].
  destruct (OnlyMutated o && negb (mutated c)).
  - destruct (IH o st cw) as [[[cs' st'] [[offs cw'] e]] ->]. eauto.
  - destruct (Hc st false {| OnlyMutated := OnlyMutated o;
                             BaseOffset := wrap64 (BaseOffset o + cw);
                             CommitLog := CommitLog o |})
      as [[[c' st1] [[o' w] [e|]]] ->]; [eauto|].
    destruct (IH o st1 (wrap64 (cw + w))) as [[[cs' st'] [[offs cw'] e]] ->]. eauto.
Qed.

(** X6. Serialising to a writer that honours the contract of [io.Writer]
    always returns: the buffer of every record is large enough for what is put
    in it (no index runs out of range) and the helper never retries. *)
Theorem node_writeTo_returns n : ∀ st asRoot o,
  ∃ res, node_writeTo Write (S fuel) n st asRoot o = Done res.
Proof.
  induction n as [off cts mut nodes IH|off cts mut values
                 |off mk t sz mut node_ stored _ IH] using node_induction;
    intros st asRoot o; simpl.
  - destruct (OnlyMutated o && (0 <? off)); [eauto|].
    destruct (writeChildren_returns nodes IH o st 0)
      as [[[cs' st'] [[offs cw] [e|]]] ->]; [eauto|].
    unfold innerNode_emit. rewrite innerNode_record_layout, writeTo_one_pass.
    destruct (Write _ _) as [[w' k] [e|]]; eauto.
  - unfold leafNode_writeTo. destruct (OnlyMutated o && (0 <? off)); [eauto|].
    rewrite leafNode_record_layout, writeTo_one_pass.
    destruct (Write _ _) as [[w' k] [e|]]; eauto.
  - destruct (OnlyMutated o && ref_durable node_); [eauto|].
    destruct stored as [e|m]; [eauto|].
    destruct (IH m eq_refl (mkIo (sink st) (loads st ++ [off])) asRoot o)
      as [[[m' st'] r] ->]. eauto.
Qed.
End Contract.

Lemma bufferWrite_honours_contract : honours_contract bufferWrite.
Proof. intros w p w' n H. unfold bufferWrite in H. by simplify_eq. Qed.

Lemma writeTo_one_pass_witness :
  writeTo bufferWrite 1 [1; 2; 3] [9]
  = Some (let '(w', _, err) := bufferWrite [9] [1; 2; 3] in (w', err)).
Proof.
  apply (writeTo_one_pass bufferWrite bufferWrite_honours_contract 0%nat).
Defined.

Lemma node_writeTo_returns_witness :
  ∃ res, node_writeTo bufferWrite 1 inner_new (mkIo [] []) true
           {| OnlyMutated := true; BaseOffset := 0; CommitLog := true |} = Done res.
Proof.
  apply (node_writeTo_returns bufferWrite bufferWrite_honours_contract 0%nat).
Defined.

(** ** A sink that fails *)

Lemma writeChildren_failWrite e fuel cs :
  Forall (λ c, ∀ st asRoot o, ∃ ls off err,
            node_writeTo (failWrite e) (S fuel) c st asRoot o
            = Done (c, mkIo (sink st) (loads st ++ ls), (off, 0, err))) cs →
  ∀ o st cw, ∃ ls offs cw' err,
    writeChildren (node_writeTo (failWrite e) (S fuel)) o cs st cw
    = Done (cs, mkIo (sink st) (loads st ++ ls), (offs, cw', err)).
Proof.
  induction 1 as [|c cs Hc _ IH]; intros o st cw; simpl.
  - exists [], [], cw, None. rewrite app_nil_r. by destruct st.
  - destruct (OnlyMutated o && negb (mutated c)).
    + destruct (IH o st cw) as (ls & offs & cw' & err & ->). eauto 10.
    + destruct (Hc st false {| OnlyMutated := OnlyMutated o;
                               BaseOffset := wrap64 (BaseOffset o + cw);
                               CommitLog := CommitLog o |})
        as (ls & o' & [err|] & ->); [eauto 10|].
      destruct (IH o (mkIo (sink st) (loads st ++ ls)) (wrap64 (cw + 0)))
        as (ls' & offs & cw' & err & ->).
      cbn [sink loads]. rewrite <- (assoc_L (++)). eauto 10.
Qed.

(** X7. A sink whose every write fails receives nothing and no offset is
    committed: whatever the options, the call returns, the node graph and
    the sink are as before, and the count returned is zero. *)
Theorem failing_sink_changes_nothing e fuel n : ∀ st asRoot o,
  ∃ ls off err,
    node_writeTo (failWrite e) (S fuel) n st asRoot o
    = Done (n, mkIo (sink st) (loads st ++ ls), (off, 0, err)).
Proof.
  induction n as [off cts mut nodes IH|off cts mut values
                 |off mk t sz mut node_ stored _ IH] using node_induction;
    intros st asRoot o; simpl.
  - destruct (OnlyMutated o && (0 <? off)).
    { exists [], off, None. rewrite app_nil_r. by destruct st. }
    destruct (writeChildren_failWrite e fuel nodes IH o st 0)
      as (ls & offs & cw & [err|] & ->); [eauto 10|].
    unfold innerNode_emit. rewrite innerNode_record_layout.
    rewrite (writeTo_error (failWrite e) fuel _ _ _ 0 e eq_refl). eauto 10.
  - unfold leafNode_writeTo. destruct (OnlyMutated o && (0 <? off)).
    { exists [], off, None. rewrite app_nil_r. by destruct st. }
    rewrite leafNode_record_layout.
    rewrite (writeTo_error (failWrite e) fuel _ _ _ 0 e eq_refl).
    exists [], 0, (Some e). by rewrite app_nil_r.
  - destruct (OnlyMutated o && ref_durable node_).
    { exists [], off, None. rewrite app_nil_r. by destruct st. }
    destruct stored as [e'|m]; [eauto 10|].
    destruct (IH m eq_refl (mkIo (sink st) (loads st ++ [off])) asRoot o)
      as (ls & off' & err & ->).
    cbn [sink loads]. rewrite <- (assoc_L (++)). eauto 10.
Qed.

(** ** What [Snapshot.WriteTo] returns *)

(** X8. When [Snapshot.WriteTo] into a buffer returns no error, the count it
    returns is the number of bytes it appended to the buffer (as an [int64]),
    and the call leaves the id, the registry, [maxReaderID] and [closed] of
    the snapshot as they are. *)
Theorem Snapshot_WriteTo_count {Path : Type} fuel (s s' : @Snapshot Path) st st' o n :
  Snapshot_WriteTo bufferWrite (S fuel) s st o = Done (s', st', (n, None)) →
  (∃ out, sink st' = sink st ++ out ∧ n = int (length out))
  ∧ snap_id s' = snap_id s ∧ readers s' = readers s
  ∧ maxReaderID s' = maxReaderID s ∧ closed s' = closed s.
Proof.
  unfold Snapshot_WriteTo. intros H.
  destruct (node_writeTo _ _ _ _ _ _) as [[[rt st1] [[off tw] err]]| |] eqn:E;
    try discriminate H.
  simplify_eq. split; [|done].
  by apply node_counts_bytes in E.
Qed.

Lemma Snapshot_WriteTo_count_witness :
  (∃ out, sink (mkIo (leafNode_layout true [mkLeafValue [107] [1; 2] 7 0]) [])
          = sink (@mkIo bytes [] []) ++ out ∧ 40 = int (length out))
  ∧ snap_id snapshot1 = snap_id snapshot1 ∧ readers snapshot1 = readers snapshot1
  ∧ maxReaderID snapshot1 = maxReaderID snapshot1 ∧ closed snapshot1 = closed snapshot1.
Proof.
  apply (Snapshot_WriteTo_count 0%nat snapshot1 snapshot1 (mkIo [] [])
           (mkIo (leafNode_layout true [mkLeafValue [107] [1; 2] 7 0]) [])
           {| OnlyMutated := true; BaseOffset := 0; CommitLog := false |} 40).
  by vm_compute.
Defined.

(** ** Offsets after a dump with [CommitLog] *)

Section Commit.
Context {W : Type}.
Variable Write : W → bytes → W * Z * option error.
Variable fuel : nat.

(** With [CommitLog] on, an inner or leaf node that returns without error
    has as its offset the offset it returned. *)
Lemma commit_offset_returned n st asRoot o n' st' off tw :
  is_ref n = false → CommitLog o = true →
  node_writeTo Write fuel n st asRoot o = Done (n', st', (off, tw, None)) →
  offset n' = off ∧ is_ref n' = false ∧ mutated n' = mutated n.
Proof.
  intros Hn Hcl H. destruct n as [off0 cts mut nodes|off0 cts mut values|]; [| |done];
    simpl in H.
  - destruct (OnlyMutated o && (0 <? off0)); [by simplify_eq|].
    destruct (writeChildren _ _ _ _ _) as [[[nodes' st1] [[offsets cw] [e|]]]| |];
      try discriminate H.
    unfold innerNode_emit in H. rewrite Hcl in H. run_cases H. by simplify_eq.
  - unfold leafNode_writeTo in H. rewrite Hcl in H.
    run_cases H; by simplify_eq.
Qed.

(** X9. With [CommitLog] on, the offsets the loop over the children of an
    inner node collects agree with what the reference records hold: for every
    inner or leaf child the entry of [offsets] is the offset the child has
    when the record is built, except for a child the loop passed over
    ([OnlyMutated] on and the child not mutated), whose entry is zero. In a
    full dump the two agree for every child. *)
Theorem commit_offsets_agree o cs : ∀ st cw cs' st' offs cw',
  CommitLog o = true →
  Forall (λ c, is_ref c = false) cs →
  writeChildren (node_writeTo Write fuel) o cs st cw = Done (cs', st', (offs, cw', None)) →
  Forall2 (λ c' oi, oi = offset c' ∨
                    (OnlyMutated o = true ∧ mutated c' = false ∧ oi = 0)) cs' offs
  ∧ (OnlyMutated o = false → offs = offset <$> cs').
Proof.
  intros st cw cs' st' offs cw' Hcl Hcs. revert st cw cs' st' offs cw'.
  induction Hcs as [|c cs Hc _ IH]; intros st cw cs' st' offs cw' H; simpl in H.
  - simplify_eq. split; [constructor|done].
  - destruct (OnlyMutated o) eqn:Hom; simpl in H.
    + destruct (mutated c) eqn:Hmut; simpl in H.
      * destruct (node_writeTo _ _ c _ _ _) as [[[c1 st1] [[o1 w] [e|]]]| |] eqn:Ec;
          try discriminate H.
        destruct (writeChildren _ _ cs _ _) as [[[cs1 st2] [[offs1 cw1] e]]| |] eqn:E;
          try discriminate H.
        simplify_eq.
        apply commit_offset_returned in Ec as (Ho & _ & _); [|done..].
        apply IH in E as [E _].
        split; [|done]. constructor; [by left|done].
      * destruct (writeChildren _ _ cs _ _) as [[[cs1 st2] [[offs1 cw1] e]]| |] eqn:E;
          try discriminate H.
        simplify_eq. apply IH in E as [E _].
        split; [|done]. constructor; [by right|done].
    + destruct (node_writeTo _ _ c _ _ _) as [[[c1 st1] [[o1 w] [e|]]]| |] eqn:Ec;
        try discriminate H.
      destruct (writeChildren _ _ cs _ _) as [[[cs1 st2] [[offs1 cw1] e]]| |] eqn:E;
        try discriminate H.
      simplify_eq.
      apply commit_offset_returned in Ec as (Ho & _ & _); [|done..].
      apply IH in E as [E1 E2].
      split; [constructor; [by left|done]|].
      intros _. rewrite fmap_cons, Ho. f_equal. by apply E2.
Qed.

(** X10. After a dump with [CommitLog] on has written an inner or leaf node
    at an offset above zero, an incremental dump of that node writes nothing:
    whatever the sink, it returns the committed offset with a count of zero.
    A leaf committed at a [BaseOffset] of zero or less is not recognised as
    written: the next incremental dump writes its record again. *)
Theorem incremental_dump_after_commit :
  (∀ n st asRoot o n' st' off tw,
     is_ref n = false → CommitLog o = true →
     node_writeTo Write fuel n st asRoot o = Done (n', st', (off, tw, None)) →
     0 < off →
     ∀ W2 (Write2 : W2 → bytes → W2 * Z * option error) fuel2 st2 asRoot2 base commit,
       node_writeTo Write2 fuel2 n' st2 asRoot2
         {| OnlyMutated := true; BaseOffset := base; CommitLog := commit |}
       = Done (n', st2, (off, 0, None)))
  ∧ (∀ off0 cts mut values st asRoot o l' st' off tw,
       CommitLog o = true →
       OnlyMutated o && (0 <? off0) = false →
       node_writeTo Write fuel (leafNode off0 cts mut values) st asRoot o
       = Done (l', st', (off, tw, None)) →
       BaseOffset o ≤ 0 →
       ∀ fuel2 st2 asRoot2 base,
         ∃ tw2,
           node_writeTo bufferWrite (S fuel2) l' st2 asRoot2
             {| OnlyMutated := true; BaseOffset := base; CommitLog := false |}
           = Done (l', mkIo (sink st2 ++ leafNode_layout asRoot2 values) (loads st2),
                   (base, tw2, None))).
Proof.
  split.
  - intros n st asRoot o n' st' off tw Hn Hcl H Hpos W2 Write2 fuel2 st2 asRoot2 base commit.
    apply commit_offset_returned in H as (Ho & Hn' & _); [|done..].
    destruct n' as [off1 cts mut nodes|off1 cts mut values|]; [| |done];
      simpl in Ho; subst off1; simpl.
    + by destruct (Z.ltb_spec 0 off); [|lia].
    + unfold leafNode_writeTo. simpl. by destruct (Z.ltb_spec 0 off); [|lia].
  - intros off0 cts mut values st asRoot o l' st' off tw Hcl Hskip H Hbase
      fuel2 st2 asRoot2 base.
    simpl in H. unfold leafNode_writeTo in H. rewrite Hskip, Hcl in H.
    run_cases H. simplify_eq. simpl. unfold leafNode_writeTo. simpl.
    destruct (Z.ltb_spec 0 (BaseOffset o)); [lia|].
    rewrite leafNode_record_layout, writeTo_buffer. by eexists.
Qed.
End Commit.

Lemma commit_offsets_agree_witness :
  let cs' := [leafNode 8 5 false [mkLeafValue [97] [9] 5 3];
              leafNode 43 7 true [mkLeafValue [107] [1; 2] 7 0]] in
  let o := {| OnlyMutated := false; BaseOffset := 8; CommitLog := true |} in
  Forall2 (λ c' oi, oi = offset c' ∨
                    (OnlyMutated o = true ∧ mutated c' = false ∧ oi = 0)) cs' [8; 43]
  ∧ (OnlyMutated o = false → [8; 43] = offset <$> cs').
Proof.
  intros cs' o.
  eapply (commit_offsets_agree bufferWrite 1 o [leaf_old; leaf_new] (mkIo [] []) 0
            cs' _ [8; 43] 71).
  - reflexivity.
  - repeat constructor.
  - vm_compute. reflexivity.
Defined.

Lemma incremental_dump_after_commit_witness :
  let written :=
    innerNode 44 7 true [leaf_old; leafNode 8 7 true [mkLeafValue [107] [1; 2] 7 0]] in
  node_writeTo (failWrite (ErrIO 1)) 0 written (mkIo [] []) true
    {| OnlyMutated := true; BaseOffset := 143; CommitLog := true |}
  = Done (written, mkIo [] [], (44, 0, None))
  ∧ ∃ tw2,
      node_writeTo bufferWrite 1 leaf_new (mkIo [] []) false
        {| OnlyMutated := true; BaseOffset := 36; CommitLog := false |}
      = Done (leaf_new,
              mkIo ([] ++ leafNode_layout false [mkLeafValue [107] [1; 2] 7 0]) [],
              (36, tw2, None)).
Proof.
  intros written.
  destruct (incremental_dump_after_commit bufferWrite 1) as [Hpos Hzero].
  split.
  - eapply (Hpos inner_new (mkIo [] []) true
              {| OnlyMutated := true; BaseOffset := 8; CommitLog := true |}
              written _ 44 99);
      [reflexivity|reflexivity|vm_compute; reflexivity|lia].
  - eapply (Hzero 0 7 true [mkLeafValue [107] [1; 2] 7 0] (mkIo [] []) false
              {| OnlyMutated := true; BaseOffset := 0; CommitLog := true |}
              leaf_new _ 0 36);
      [reflexivity|reflexivity|vm_compute; reflexivity|simpl; lia].
Defined.

(** ** Graphs that are wholly in memory *)

Section InMemory.
Context {W : Type}.
Variable Write : W → bytes → W * Z * option error.
Variable fuel : nat.

Lemma writeChildren_no_ref o cs :
  Forall (λ c, has_no_ref c = true →
               ∀ st asRoot o c' st' r,
                 node_writeTo Write fuel c st asRoot o = Done (c', st', r) →
                 loads st' = loads st ∧ has_no_ref c' = true) cs →
  forallb has_no_ref cs = true →
  ∀ st cw cs' st' r,
    writeChildren (node_writeTo Write fuel) o cs st cw = Done (cs', st', r) →
    loads st' = loads st ∧ forallb has_no_ref cs' = true.
Proof.
  induction 1 as [|c cs Hc _ IH]; intros Hall st cw cs' st' r H; simpl in H.
  - by simplify_eq.
  - cbn [forallb] in Hall. apply andb_true_iff in Hall as [Hc0 Hcs0].
    specialize (Hc Hc0). specialize (IH Hcs0).
    run_cases H; simplify_eq;
      repeat match goal with
      | Hx : node_writeTo _ _ c _ _ _ = Done _ |- _ => apply Hc in Hx as [? ?]
      | Hx : writeChildren _ _ _ _ _ = Done _ |- _ => apply IH in Hx as [? ?]
      end; cbn [forallb]; split; try congruence; by apply andb_true_iff.
Qed.

(** X11. Serialising a graph with no reference in it never asks the node
    store: whatever the options, the sink and the outcome, the log of the
    store is as before, and the graph still has no reference. *)
Theorem no_ref_no_store n : ∀ st asRoot o n' st' r,
  has_no_ref n = true →
  node_writeTo Write fuel n st asRoot o = Done (n', st', r) →
  loads st' = loads st ∧ has_no_ref n' = true.
Proof.
  induction n as [off cts mut nodes IH|off cts mut values
                 |off mk t sz mut node_ stored _ _] using node_induction;
    intros st asRoot o n' st' r Hn H; [| |done]; simpl in H.
  - destruct (OnlyMutated o && (0 <? off)); [by simplify_eq|].
    assert (Forall (λ c, has_no_ref c = true →
               ∀ st asRoot o c' st' r,
                 node_writeTo Write fuel c st asRoot o = Done (c', st', r) →
                 loads st' = loads st ∧ has_no_ref c' = true) nodes) as IH'.
    { eapply Forall_impl; [exact IH|]. simpl. intros c Hc Hc0 st0 a0 o0 c' st0' r0.
      by apply Hc. }
    destruct (writeChildren _ _ _ _ _) as [[[nodes' st1] [[offsets cw] [e|]]]| |] eqn:Hch;
      try discriminate H;
      apply (writeChildren_no_ref _ _ IH' Hn) in Hch as [Hl Hr].
    + by simplify_eq.
    + unfold innerNode_emit in H.
      run_cases H; simplify_eq; cbn [loads]; (split; [done|]);
        try destruct (CommitLog o); done.
  - unfold leafNode_writeTo in H.
    run_cases H; simplify_eq; cbn [loads]; (split; [done|]);
      try destruct (CommitLog o); done.
Qed.
End InMemory.

Lemma no_ref_no_store_witness :
  loads (mkIo (leafNode_layout false [mkLeafValue [107] [1; 2] 7 0]
               ++ innerNode_layout true
                    [leaf_old; leafNode 8 7 true [mkLeafValue [107] [1; 2] 7 0]] offset)
           [])
  = loads (@mkIo bytes [] [])
  ∧ has_no_ref
      (innerNode 44 7 true [leaf_old; leafNode 8 7 true [mkLeafValue [107] [1; 2] 7 0]])
    = true.
Proof.
  eapply (no_ref_no_store bufferWrite 1 inner_new (mkIo [] []) true
            {| OnlyMutated := true; BaseOffset := 8; CommitLog := true |} _ _ (44, 99, None)).
  - reflexivity.
  - vm_compute. reflexivity.
Defined.

(** ** The size of a full dump *)

Lemma writeChildren_full_size fuel o cs :
  OnlyMutated o = false →
  Forall (λ c, ∀ st asRoot o c' st' off tw,
            OnlyMutated o = false →
            node_writeTo bufferWrite (S fuel) c st asRoot o = Done (c', st', (off, tw, None)) →
            ∃ out, sink st' = sink st ++ out ∧
                   length out = (dump_size c + if asRoot then 4 else 0)%nat) cs →
  ∀ st cw cs' st' offs cw',
    writeChildren (node_writeTo bufferWrite (S fuel)) o cs st cw
    = Done (cs', st', (offs, cw', None)) →
    ∃ out, sink st' = sink st ++ out ∧ length out = sum_list_with dump_size cs.
Proof.
  intros Ho. induction 1 as [|c cs Hc _ IH]; intros st cw cs' st' offs cw' H; simpl in H.
  - simplify_eq. exists []. by rewrite app_nil_r.
  - rewrite Ho in H. simpl in H.
    destruct (node_writeTo _ _ c _ _ _) as [[[c1 st1] [[o1 w] [e|]]]| |] eqn:Ec;
      try discriminate H.
    destruct (writeChildren _ _ cs _ _) as [[[cs1 st2] [[offs1 cw1] e]]| |] eqn:E;
      try discriminate H.
    simplify_eq.
    apply Hc in Ec as (outc & Sc & Lc); [|done].
    apply IH in E as (outr & Sr & Lr).
    exists (outc ++ outr). rewrite Sr, Sc, (assoc_L (++)), length_app. split; [done|].
    cbn [sum_list_with]. lia.
Qed.

(** X12. A full dump writes every node of the graph once: when a dump with
    [OnlyMutated] off into a buffer returns no error, the bytes it appended
    are as many as the non-root records of all the nodes of the graph take
    together, plus four for the size mirror when the graph is written as
    root. Offsets already set, [mutated] flags and [CommitLog] make no
    difference to the amount. *)
Theorem full_dump_size fuel n : ∀ st asRoot o n' st' off tw,
  OnlyMutated o = false →
  node_writeTo bufferWrite (S fuel) n st asRoot o = Done (n', st', (off, tw, None)) →
  ∃ out, sink st' = sink st ++ out ∧
         length out = (dump_size n + if asRoot then 4 else 0)%nat.
Proof.
  induction n as [off0 cts mut nodes IH|off0 cts mut values
                 |off0 mk t sz mut node_ stored _ IH] using node_induction;
    intros st asRoot o n' st' off tw Ho H; simpl in H.
  - rewrite Ho in H. simpl in H.
    destruct (writeChildren _ _ _ _ _) as [[[cs1 st1] [[offs1 cw1] [e|]]]| |] eqn:Hch;
      try discriminate H.
    pose proof (writeChildren_erase _ _ _ _ (writeTo_node_erase fuel nodes)
                  _ _ _ _ _ Hch) as Her.
    apply (writeChildren_full_size fuel o nodes Ho IH) in Hch as (outc & Sc & Lc).
    unfold innerNode_emit in H.
    rewrite innerNode_record_layout, writeTo_buffer in H. simplify_eq.
    exists (outc ++ innerNode_layout asRoot cs1 offset). cbn [sink].
    rewrite Sc, (assoc_L (++)). split; [done|].
    rewrite length_app, length_innerNode_layout, (innerNode_size_erase nodes cs1 Her).
    cbn [dump_size]. lia.
  - unfold leafNode_writeTo in H. rewrite Ho in H. simpl in H.
    rewrite leafNode_record_layout, writeTo_buffer in H. simplify_eq.
    exists (leafNode_layout asRoot values). cbn [sink]. split; [done|].
    by rewrite length_leafNode_layout.
  - rewrite Ho in H. simpl in H.
    destruct stored as [e|m]; [discriminate H|].
    destruct (node_writeTo _ _ m _ _ _) as [[[m' st1] r1]| |] eqn:Hm; try discriminate H.
    simplify_eq. by apply (IH m eq_refl) in Hm.
Qed.

Lemma full_dump_size_witness :
  ∃ out,
    sink (mkIo (leafNode_layout false [mkLeafValue [97] [9] 5 3]
                ++ leafNode_layout false [mkLeafValue [107] [1; 2] 7 0]
                ++ innerNode_layout true [leaf_old; leaf_new] offset) [])
    = sink (@mkIo bytes [] []) ++ out ∧
    length out = (dump_size inner_new + 4)%nat.
Proof.
  eapply (full_dump_size 0%nat inner_new (mkIo [] []) true
            {| OnlyMutated := false; BaseOffset := 0; CommitLog := false |}).
  - reflexivity.
  - vm_compute. reflexivity.
Defined.

(** ** What a record tells its reader *)

Lemma uint32_int_small n : Z.of_nat n < 2 ^ 32 → uint32 (int n) = Z.of_nat n.
Proof.
  intros H. unfold uint32. change (2 ^ 32) with 4294967296 in *. wrap_lia.
Qed.

Lemma be_value_be4_small x : 0 ≤ x < 2 ^ 32 → be_value (be 4 x) = x.
Proof. intros H. rewrite be_value_be. apply Z.mod_small. simpl. lia. Qed.

Lemma be_inj n a b :
  0 ≤ a < 256 ^ Z.of_nat n → 0 ≤ b < 256 ^ Z.of_nat n → be n a = be n b → a = b.
Proof.
  intros Ha Hb H. apply (f_equal be_value) in H.
  by rewrite !be_value_be, !Z.mod_small in H.
Qed.

(** X13. The size field of a record is the length of the record: for a leaf
    or inner record of less than 2^32 bytes, the four bytes after the tag,
    read big-endian, give the number of bytes of the record, not counting the
    four bytes of the mirror that ends a root record; and the last four bytes
    of a root record give the same number. *)
Theorem size_field_is_record_length :
  (∀ asRoot values,
     Z.of_nat (leafNode_size values) < 2 ^ 32 →
     let rec := leafNode_layout asRoot values in
     be_value (take 4 (drop 1 rec))
     = Z.of_nat (length rec) - (if asRoot then 4 else 0)
     ∧ (if asRoot
        then be_value (drop (length rec - 4) rec) = be_value (take 4 (drop 1 rec))
        else True))
  ∧ (∀ asRoot nodes childOffset,
       Z.of_nat (innerNode_size nodes) < 2 ^ 32 →
       let rec := innerNode_layout asRoot nodes childOffset in
       be_value (take 4 (drop 1 rec))
       = Z.of_nat (length rec) - (if asRoot then 4 else 0)
       ∧ (if asRoot
          then be_value (drop (length rec - 4) rec) = be_value (take 4 (drop 1 rec))
          else True)).
Proof.
  assert (∀ (tag : Z) n (mid : bytes) (root : bool),
    Z.of_nat n < 2 ^ 32 →
    let rec := [tag] ++ be 4 (uint32 (int n)) ++ mid
               ++ (if root then be 4 (uint32 (int n)) else []) in
    be_value (take 4 (drop 1 rec)) = Z.of_nat n
    ∧ (root = true → be_value (drop (length rec - 4) rec) = Z.of_nat n)) as Hgen.
  { intros tag n mid root Hn rec. subst rec.
    assert (be_value (be 4 (uint32 (int n))) = Z.of_nat n) as Hv.
    { rewrite uint32_int_small by done. apply be_value_be4_small. lia. }
    split.
    - assert (∀ X : bytes, drop 1 ([tag] ++ X) = X) as Hd by done.
      rewrite Hd, take_app_length' by (by rewrite length_be). exact Hv.
    - intros ->.
      rewrite !(assoc_L (++)).
      rewrite length_app, length_be, Nat.add_sub, drop_app_length. exact Hv. }
  split.
  - intros asRoot values Hn rec.
    destruct (Hgen (if asRoot then RootLeafNodeType else LeafNodeType)
                (leafNode_size values)
                (be 4 (uint32 (len values)) ++ concat (leafEntry_layout <$> values))
                asRoot Hn) as [H1 H2].
    assert (rec = [if asRoot then RootLeafNodeType else LeafNodeType]
                  ++ be 4 (uint32 (int (leafNode_size values)))
                  ++ (be 4 (uint32 (len values)) ++ concat (leafEntry_layout <$> values))
                  ++ (if asRoot then be 4 (uint32 (int (leafNode_size values))) else []))
      as Hrec by (subst rec; unfold leafNode_layout; by rewrite <- !(assoc_L (++))).
    cbv zeta in H1, H2. rewrite <- Hrec in H1, H2. rewrite H1. split.
    + subst rec. rewrite length_leafNode_layout. destruct asRoot; lia.
    + destruct asRoot; [|done]. by rewrite (H2 eq_refl).
  - intros asRoot nodes childOffset Hn rec.
    destruct (Hgen (if asRoot then RootInnerNodeType else InnerNodeType)
                (innerNode_size nodes)
                (be 4 (uint32 (len nodes))
                 ++ concat ((λ c, childRef_layout c (childOffset c)) <$> nodes))
                asRoot Hn) as [H1 H2].
    assert (rec = [if asRoot then RootInnerNodeType else InnerNodeType]
                  ++ be 4 (uint32 (int (innerNode_size nodes)))
                  ++ (be 4 (uint32 (len nodes))
                      ++ concat ((λ c, childRef_layout c (childOffset c)) <$> nodes))
                  ++ (if asRoot then be 4 (uint32 (int (innerNode_size nodes))) else []))
      as Hrec by (subst rec; unfold innerNode_layout; by rewrite <- !(assoc_L (++))).
    cbv zeta in H1, H2. rewrite <- Hrec in H1, H2. rewrite H1. split.
    + subst rec. rewrite length_innerNode_layout. destruct asRoot; lia.
    + destruct asRoot; [|done]. by rewrite (H2 eq_refl).
Qed.

Lemma size_field_is_record_length_witness :
  let values := [mkLeafValue [107] [1; 2] 7 0] in
  (be_value (take 4 (drop 1 (leafNode_layout true values)))
   = Z.of_nat (length (leafNode_layout true values)) - 4
   ∧ be_value (drop (length (leafNode_layout true values) - 4)
                 (leafNode_layout true values))
     = be_value (take 4 (drop 1 (leafNode_layout true values))))
  ∧ (be_value (take 4 (drop 1 (innerNode_layout false [leaf_old; leaf_new] offset)))
     = Z.of_nat (length (innerNode_layout false [leaf_old; leaf_new] offset)) - 0
     ∧ True).
Proof.
  intros values. split.
  - apply (proj1 size_field_is_record_length true values). by vm_compute.
  - apply (proj2 size_field_is_record_length false [leaf_old; leaf_new] offset).
    by vm_compute.
Defined.

(** ** Records determine their entries *)

Lemma len_small_inj {A B} (l : list A) (k : list B) :
  Z.of_nat (length l) < 2 ^ 32 → Z.of_nat (length k) < 2 ^ 32 →
  be 4 (uint32 (len l)) = be 4 (uint32 (len k)) → length l = length k.
Proof.
  intros Hl Hk H. unfold len in H. rewrite !uint32_int_small in H by done.
  apply be_inj in H; [lia|simpl; lia|simpl; lia].
Qed.

Lemma be8_uint64_inj a b :
  0 ≤ a < 2 ^ 64 → 0 ≤ b < 2 ^ 64 → be 8 (uint64 a) = be 8 (uint64 b) → a = b.
Proof.
  intros Ha Hb H. unfold uint64 in H. rewrite !Z.mod_small in H by done.
  apply be_inj in H; [done|simpl; lia|simpl; lia].
Qed.

Lemma leafEntry_layout_inj v v' r r' :
  entry_fits v → entry_fits v' →
  leafEntry_layout v ++ r = leafEntry_layout v' ++ r' → v = v' ∧ r = r'.
Proof.
  intros (Hk & Hv & Ht & Hp) (Hk' & Hv' & Ht' & Hp') H.
  unfold leafEntry_layout in H. rewrite <- !(assoc_L (++)) in H.
  apply app_inj_1 in H as [E1 H]; [|by rewrite !length_be].
  apply len_small_inj in E1; [|done..].
  apply app_inj_1 in H as [E2 H]; [|done].
  apply app_inj_1 in H as [E3 H]; [|by rewrite !length_be].
  apply len_small_inj in E3; [|done..].
  apply app_inj_1 in H as [E4 H]; [|done].
  apply app_inj_1 in H as [E5 H]; [|by rewrite !length_be].
  apply be8_uint64_inj in E5; [|done..].
  apply app_inj_1 in H as [E6 H]; [|by rewrite !length_be].
  apply be8_uint64_inj in E6; [|done..].
  split; [|done]. destruct v, v'. simpl in *. by subst.
Qed.

Lemma leafEntries_layout_inj vs : ∀ vs' r r',
  Forall entry_fits vs → Forall entry_fits vs' → length vs = length vs' →
  concat (leafEntry_layout <$> vs) ++ r = concat (leafEntry_layout <$> vs') ++ r' →
  vs = vs' ∧ r = r'.
Proof.
  induction vs as [|v vs IH]; intros [|v' vs'] r r' Hf Hf' Hlen H; try done.
  rewrite !fmap_cons in H. cbn [concat] in H. rewrite <- !(assoc_L (++)) in H.
  apply Forall_cons in Hf as [Hv Hf]. apply Forall_cons in Hf' as [Hv' Hf'].
  apply leafEntry_layout_inj in H as [-> H]; [|done..].
  apply IH in H as [-> ->]; [done|done..|]. simpl in Hlen. lia.
Qed.

(** X14. A leaf record determines its entries: two leaves with fewer than
    2^32 entries, keys and values shorter than 2^32 bytes and timestamps in
    the range of [uint64], whose records are the same bytes, have the same
    entries in the same order and were both written as root or both not. *)
Theorem leaf_record_determines_entries asRoot asRoot' values values' :
  Forall entry_fits values → Forall entry_fits values' →
  Z.of_nat (length values) < 2 ^ 32 → Z.of_nat (length values') < 2 ^ 32 →
  leafNode_layout asRoot values = leafNode_layout asRoot' values' →
  asRoot = asRoot' ∧ values = values'.
Proof.
  intros Hf Hf' Hn Hn' H. unfold leafNode_layout in H.
  apply app_inj_1 in H as [Htag H]; [|done].
  assert (asRoot = asRoot') as <- by (by destruct asRoot, asRoot').
  split; [done|].
  apply app_inj_1 in H as [_ H]; [|by rewrite !length_be].
  apply app_inj_1 in H as [Ec H]; [|by rewrite !length_be].
  apply len_small_inj in Ec; [|done..].
  by apply leafEntries_layout_inj in H as [-> _].
Qed.

Lemma leaf_record_determines_entries_witness :
  true = true ∧ [mkLeafValue [107] [1; 2] 7 0] = [mkLeafValue [107] [1; 2] 7 0].
Proof.
  apply (leaf_record_determines_entries true true
           [mkLeafValue [107] [1; 2] 7 0] [mkLeafValue [107] [1; 2] 7 0]).
  - repeat constructor; simpl; lia.
  - repeat constructor; simpl; lia.
  - simpl. lia.
  - simpl. lia.
  - reflexivity.
Defined.

(** ** The bounds of [writeNodeRefTo] *)

Lemma store_at_Some buf i bs buf' :
  store_at buf i bs = Some buf' →
  (i + length bs ≤ length buf)%nat ∧ length buf' = length buf ∧
  ∀ j, (i + length bs ≤ j)%nat → drop j buf' = drop j buf.
Proof.
  unfold store_at. intros H.
  destruct (Nat.leb_spec (i + length bs) (length buf)) as [Hle|]; [|done].
  simplify_eq. split_and!; [done| |].
  - rewrite !length_app, length_take, length_drop. lia.
  - intros j Hj.
    rewrite drop_app_ge by (rewrite length_take; lia).
    rewrite drop_app_ge by (rewrite length_take; lia).
    rewrite drop_drop, length_take. f_equal. lia.
Qed.

Lemma copy_Some buf i src buf' :
  copy buf i src = Some buf' →
  length buf' = length buf ∧
  ∀ j, (i + length src ≤ j)%nat → drop j buf' = drop j buf.
Proof.
  unfold copy. intros H.
  destruct (Nat.leb_spec i (length buf)) as [Hle|]; [|done].
  apply store_at_Some in H as (Hb & Hl & Hd). split; [done|].
  intros j Hj. apply Hd. rewrite length_take. lia.
Qed.

Lemma writeNodeRefTo_Some c buf i0 buf' k :
  writeNodeRefTo c buf i0 = Some (buf', k) →
  (i0 + childRef_size c ≤ length buf)%nat ∧
  drop (i0 + childRef_size c) buf' = drop (i0 + childRef_size c) buf.
Proof.
  unfold writeNodeRefTo, PutUint32, PutUint64, childRef_size. cbv zeta. intros H.
  destruct (store_at buf _ _) as [b1|] eqn:E1; [|done]. cbn [mbind option_bind] in H.
  destruct (copy b1 _ _) as [b2|] eqn:E2; [|done]. cbn [mbind option_bind] in H.
  destruct (store_at b2 _ _) as [b3|] eqn:E3; [|done]. cbn [mbind option_bind] in H.
  destruct (store_at b3 _ _) as [b4|] eqn:E4; [|done]. cbn [mbind option_bind] in H.
  destruct (store_at b4 _ _) as [b5|] eqn:E5; [|done]. cbn [mbind option_bind] in H.
  simplify_eq.
  apply store_at_Some in E1 as (_ & L1 & D1).
  apply copy_Some in E2 as (L2 & D2).
  apply store_at_Some in E3 as (_ & L3 & D3).
  apply store_at_Some in E4 as (_ & L4 & D4).
  apply store_at_Some in E5 as (B5 & L5 & D5).
  rewrite length_be in *. split; [lia|].
  rewrite D5, D4, D3, D2, D1 by lia. done.
Qed.

(** X15. [writeNodeRefTo] needs room for the whole reference and touches
    nothing else: on a buffer with at least 4 + len(maxKey) + 8 + 4 + 8 bytes
    from the given position it writes the reference record there, returns
    that count and leaves the bytes before and after as they are; on a
    shorter buffer it panics. *)
Theorem writeNodeRefTo_bounds c buf i0 :
  writeNodeRefTo c buf i0
  = if (i0 + childRef_size c <=? length buf)%nat
    then Some (take i0 buf ++ childRef_layout c (offset c)
               ++ drop (i0 + childRef_size c) buf,
               childRef_size c)
    else None.
Proof.
  destruct (Nat.leb_spec (i0 + childRef_size c) (length buf)) as [Hle|Hlt].
  - assert (cursor buf i0 (take i0 buf) (length buf - i0)) as Hc.
    { exists (drop i0 buf). rewrite take_drop, length_take, length_drop.
      split_and!; [done|lia|done]. }
    destruct (writeNodeRefTo_cursor c buf i0 _ _ Hc) as (buf' & E & C); [lia|].
    rewrite E. f_equal. f_equal.
    apply writeNodeRefTo_Some in E as [_ Hd].
    destruct C as (rest & -> & Hi & Hr).
    rewrite Hi, drop_app_length in Hd. rewrite Hd.
    by rewrite <- Hi, <- !(assoc_L (++)).
  - destruct (writeNodeRefTo c buf i0) as [[buf' k]|] eqn:E; [|done].
    apply writeNodeRefTo_Some in E as [Hle _]. lia.
Qed.

(** ** Dumps of in-memory graphs into a buffer *)

Lemma writeChildren_buffer_no_ref fuel cs :
  Forall (λ c, has_no_ref c = true → ∀ st asRoot o,
            ∃ c' out off tw,
              node_writeTo bufferWrite (S fuel) c st asRoot o
              = Done (c', mkIo (sink st ++ out) (loads st), (off, tw, None)) ∧
              (if OnlyMutated o && (0 <? offset c) then out = []
               else (9 ≤ length out)%nat)) cs →
  forallb has_no_ref cs = true →
  ∀ o st cw, ∃ cs' out offs cw',
    writeChildren (node_writeTo bufferWrite (S fuel)) o cs st cw
    = Done (cs', mkIo (sink st ++ out) (loads st), (offs, cw', None)).
Proof.
  induction 1 as [|c cs Hc _ IH]; intros Hall o st cw; simpl.
  - exists [], [], [], cw. rewrite app_nil_r. by destruct st.
  - cbn [forallb] in Hall. apply andb_true_iff in Hall as [Hc0 Hcs0].
    specialize (Hc Hc0). specialize (IH Hcs0).
    destruct (OnlyMutated o && negb (mutated c)).
    + destruct (IH o st cw) as (cs' & out & offs & cw' & ->). eauto 10.
    + destruct (Hc st false {| OnlyMutated := OnlyMutated o;
                               BaseOffset := wrap64 (BaseOffset o + cw);
                               CommitLog := CommitLog o |})
        as (c' & out & o' & w & -> & _).
      destruct (IH o (mkIo (sink st ++ out) (loads st)) (wrap64 (cw + w)))
        as (cs' & out' & offs & cw' & ->).
      cbn [sink loads]. rewrite <- (assoc_L (++)). eauto 10.
Qed.

(** X16. Dumping a graph with no reference in it into a buffer cannot
    fail: the call returns no error and the node store is not asked. When the
    node is skipped ([OnlyMutated] on and its offset above zero) nothing
    reaches the buffer; otherwise at least the nine bytes of a tag, a size
    and a count do. *)
Theorem in_memory_dump_succeeds fuel n :
  has_no_ref n = true → ∀ st asRoot o,
  ∃ n' out off tw,
    node_writeTo bufferWrite (S fuel) n st asRoot o
    = Done (n', mkIo (sink st ++ out) (loads st), (off, tw, None)) ∧
    (if OnlyMutated o && (0 <? offset n) then out = [] else (9 ≤ length out)%nat).
Proof.
  induction n as [off0 cts mut nodes IH|off0 cts mut values
                 |off0 mk t sz mut node_ stored _ _] using node_induction;
    intros Hn st asRoot o; [| |done]; simpl.
  - destruct (OnlyMutated o && (0 <? off0)) eqn:Hskip.
    { exists (innerNode off0 cts mut nodes), [], off0, 0.
      rewrite app_nil_r. split; [by destruct st|done]. }
    destruct (writeChildren_buffer_no_ref fuel nodes IH Hn o st 0)
      as (cs' & out & offs & cw & ->).
    unfold innerNode_emit. rewrite innerNode_record_layout, writeTo_buffer.
    cbn [sink loads]. rewrite <- (assoc_L (++)).
    eexists _, (out ++ innerNode_layout asRoot cs' offset), _, _. split; [done|].
    rewrite length_app, length_innerNode_layout. unfold innerNode_size. lia.
  - unfold leafNode_writeTo. destruct (OnlyMutated o && (0 <? off0)) eqn:Hskip.
    { exists (leafNode off0 cts mut values), [], off0, 0.
      rewrite app_nil_r. split; [by destruct st|done]. }
    rewrite leafNode_record_layout, writeTo_buffer. cbn [sink loads].
    eexists _, (leafNode_layout asRoot values), _, _. split; [done|].
    rewrite length_leafNode_layout. unfold leafNode_size. lia.
Qed.

Lemma in_memory_dump_succeeds_witness :
  ∃ n' out off tw,
    node_writeTo bufferWrite 1 inner_new (mkIo [] []) true
      {| OnlyMutated := true; BaseOffset := 0; CommitLog := false |}
    = Done (n', mkIo ([] ++ out) [], (off, tw, None)) ∧
    (if true && (0 <? offset inner_new) then out = [] else (9 ≤ length out)%nat).
Proof.
  apply (in_memory_dump_succeeds 0%nat inner_new eq_refl (mkIo [] []) true
           {| OnlyMutated := true; BaseOffset := 0; CommitLog := false |}).
Defined.

(** ** Closing a reader twice *)

(** X17. The snapshot does not notice a reader that is closed twice, or
    one it never registered: on an open snapshot [closedReader] of a reader
    whose id is not in the registry returns no error and leaves the snapshot
    as it is, so a second [closedReader] of the same reader does what the
    first did and no more. *)
Theorem closedReader_twice {Path : Type} (s : @Snapshot Path) r :
  closed s = false →
  (readers s !! rd_id r = None → Snapshot_closedReader s r = (s, None))
  ∧ Snapshot_closedReader (Snapshot_closedReader s r).1 r
    = ((Snapshot_closedReader s r).1, None).
Proof.
  intros Hopen.
  assert (∀ s0 : @Snapshot Path, closed s0 = false → readers s0 !! rd_id r = None →
            Snapshot_closedReader s0 r = (s0, None)) as Hmiss.
  { intros s0 H0 Hnone. unfold Snapshot_closedReader. rewrite H0.
    rewrite delete_id by done. by destruct s0; simpl in *; subst. }
  split; [by apply Hmiss|].
  apply Hmiss.
  - unfold Snapshot_closedReader. by rewrite Hopen.
  - unfold Snapshot_closedReader. rewrite Hopen. cbn [fst readers].
    apply lookup_delete_eq.
Qed.

Lemma closedReader_twice_witness :
  Snapshot_closedReader snapshot0 reader0 = (snapshot0, None)
  ∧ Snapshot_closedReader (Snapshot_closedReader snapshot1 reader0).1 reader0
    = ((Snapshot_closedReader snapshot1 reader0).1, None).
Proof.
  split.
  - apply (proj1 (closedReader_twice snapshot0 reader0 eq_refl)). apply lookup_empty.
  - apply (proj2 (closedReader_twice snapshot1 reader0 eq_refl)).
Defined.
